(** * WireCC: a shallow embedding of [include/wirecc/wirecc.h]

    The header defines big-endian integer codecs, a cursor based
    [ByteBuffer], a 64-bit [Bitmap], a [CombinationGenerator] and a
    [RandomGenerator].  Every C++ member function becomes a Rocq function
    on an explicit state record.  Fixed width integers are [Z] with the
    wrap-around written out, a [std::vector<uint8_t>] is a [list Z] indexed
    with stdpp's lookup and insert, and an operation whose C++ behaviour is
    undefined (an out-of-range element access, a shift by 64 or more, an
    empty modulus) returns [None]. *)

From Stdlib Require Import ZArith Arith Lia List Ascii Bool.
From stdpp Require Import base option list sorting gmap.

Local Open Scope Z_scope.

(** ** Fixed width integers *)

(** Conversion to [uint32_t] / [unsigned int]. *)
Definition u32 (z : Z) : Z := z mod 2 ^ 32.

(** Conversion to [uint64_t]. *)
Definition u64 (z : Z) : Z := z mod 2 ^ 64.

(** Conversion to [uint16_t]. *)
Definition u16 (z : Z) : Z := z mod 2 ^ 16.

(** Conversion to [int] (32-bit two's complement). *)
Definition i32 (z : Z) : Z := (z + 2 ^ 31) mod 2 ^ 32 - 2 ^ 31.

(** Conversion between [char] and [uint8_t]. *)
Definition byte_of_char (c : ascii) : Z := Z.of_N (N_of_ascii c).
Definition char_of_byte (b : Z) : ascii := ascii_of_N (Z.to_N b).

(** ** Raw memory: a vector of bytes and a pointer into it

    A [uint8_t *] obtained as [&buf[pos]] is the pair of the vector and
    the offset [pos]; [p[i]] is the element at [pos + i]. *)

Definition peek (m : list Z) (i : nat) : option Z := m !! i.

Definition poke (m : list Z) (i : nat) (v : Z) : option (list Z) :=
  if decide (i < length m)%nat then Some (<[i:=v]> m) else None.

(** ** Endian codec *)

Module Endian.

(** [be64encode(val, buf)] with [buf = &m[off]]. *)
Definition be64encode (val : Z) (m : list Z) (off : nat) : option (list Z) :=
  m ← poke m off (Z.land (Z.shiftr val 56) 0xff);
  m ← poke m (off + 1) (Z.land (Z.shiftr val 48) 0xff);
  m ← poke m (off + 2) (Z.land (Z.shiftr val 40) 0xff);
  m ← poke m (off + 3) (Z.land (Z.shiftr val 32) 0xff);
  m ← poke m (off + 4) (Z.land (Z.shiftr val 24) 0xff);
  m ← poke m (off + 5) (Z.land (Z.shiftr val 16) 0xff);
  m ← poke m (off + 6) (Z.land (Z.shiftr val 8) 0xff);
  poke m (off + 7) (Z.land val 0xff).

(** [be64decode(buf)]: every byte but the last is widened to [uint64_t]
    before the shift; [buf[7] << 0] is an [int] then widened. *)
Definition be64decode (m : list Z) (off : nat) : option Z :=
  b0 ← peek m off;
  b1 ← peek m (off + 1);
  b2 ← peek m (off + 2);
  b3 ← peek m (off + 3);
  b4 ← peek m (off + 4);
  b5 ← peek m (off + 5);
  b6 ← peek m (off + 6);
  b7 ← peek m (off + 7);
  Some (Z.lor (Z.lor (Z.lor (Z.lor (Z.lor (Z.lor (Z.lor
      (u64 (i32 (Z.shiftl b7 0)))
      (u64 (Z.shiftl b6 8)))
      (u64 (Z.shiftl b5 16)))
      (u64 (Z.shiftl b4 24)))
      (u64 (Z.shiftl b3 32)))
      (u64 (Z.shiftl b2 40)))
      (u64 (Z.shiftl b1 48)))
      (u64 (Z.shiftl b0 56))).

(** [be32encode(val, buf)]. *)
Definition be32encode (val : Z) (m : list Z) (off : nat) : option (list Z) :=
  m ← poke m off (Z.land (Z.shiftr val 24) 0xff);
  m ← poke m (off + 1) (Z.land (Z.shiftr val 16) 0xff);
  m ← poke m (off + 2) (Z.land (Z.shiftr val 8) 0xff);
  poke m (off + 3) (Z.land val 0xff).

(** [be32decode(buf)]: the bytes are promoted to [int], shifted and or-ed
    as [int] (a left shift into the sign bit wraps to a negative [int]),
    and the result is converted to [uint32_t] on return. *)
Definition be32decode (m : list Z) (off : nat) : option Z :=
  b0 ← peek m off;
  b1 ← peek m (off + 1);
  b2 ← peek m (off + 2);
  b3 ← peek m (off + 3);
  Some (u32 (Z.lor (Z.lor (Z.lor
      (i32 (Z.shiftl b3 0))
      (i32 (Z.shiftl b2 8)))
      (i32 (Z.shiftl b1 16)))
      (i32 (Z.shiftl b0 24)))).

(** [be16encode(val, buf)]. *)
Definition be16encode (val : Z) (m : list Z) (off : nat) : option (list Z) :=
  m ← poke m off (Z.land (Z.shiftr val 8) 0xff);
  poke m (off + 1) (Z.land val 0xff).

(** [be16decode(buf)]: computed as [int], converted to [uint16_t] on
    return. *)
Definition be16decode (m : list Z) (off : nat) : option Z :=
  b0 ← peek m off;
  b1 ← peek m (off + 1);
  Some (u16 (Z.lor (i32 (Z.shiftl b1 0)) (i32 (Z.shiftl b0 8)))).

End Endian.

(** ** Resource sets, iterators and maps of pointers *)

Module Resources.

(** [typedef std::set<ResourceId> ResourceSet;] a [std::set<int>] is
    visited in ascending order. *)
Definition ResourceSet_seq (s : gset Z) : list Z :=
  merge_sort Z.le (elements s).

(** [struct Iterator<T>]: the iterator pair [current, end] is the sequence
    of the elements from [current] up to [end]; [count] is an
    [unsigned int]. *)
Record Iterator (A : Type) := mkIterator { current : list A; count : Z }.
Arguments mkIterator {A}.
Arguments current {A}.
Arguments count {A}.

(** [Iterator()]: [current = end], [count = 0]. *)
Definition Iterator_default {A} : Iterator A :=
  {| current := []; count := 0 |}.

(** [Iterator(const T& t)], for a container visited as [seq]. *)
Definition Iterator_of {A} (seq : list A) : Iterator A :=
  {| current := seq; count := u32 (Z.of_nat (length seq)) |}.

(** [ResourceIterator(s)]. *)
Definition ResourceIterator (s : gset Z) : Iterator Z :=
  Iterator_of (ResourceSet_seq s).

(** [getIteratorFromMap(from, rid)] on a map from [ResourceId] to
    [ResourceSet]. *)
Definition getIteratorFromMap (from : gmap Z (gset Z)) (rid : Z) : Iterator Z :=
  match from !! rid with
  | Some s => ResourceIterator s
  | None => Iterator_default
  end.

(** [deallocValues(from, to)] over the entries of the range, each a key
    and a pointer ([None] is [NULL]); [heap] is the set of the live
    allocations, and [delete] of a pointer that is not live is
    undefined. *)
Fixpoint deallocValues {K} (range : list (K * option positive))
    (heap : gset positive) : option (list (K * option positive) * gset positive) :=
  match range with
  | [] => Some ([], heap)
  | (k, second) :: range =>
      heap ← match second with
             | Some p => if decide (p ∈ heap) then Some (heap ∖ {[p]}) else None
             | None => Some heap
             end;
      '(range, heap) ← deallocValues range heap;
      Some ((k, None) :: range, heap)
  end.

End Resources.

(** ** ByteBuffer *)

Module ByteBuffer.
Import Endian.

(** [std::vector<uint8_t> buf; unsigned int pos;] *)
Record ByteBuffer := mk { buf : list Z; pos : Z }.

(** [pos += n] on an [unsigned int]. *)
Definition advance (n : Z) (b : ByteBuffer) : ByteBuffer :=
  {| buf := buf b; pos := u32 (pos b + n) |}.

(** [buf.resize(buf.size() + n)]: the new elements are zero. *)
Definition grow (n : nat) (b : ByteBuffer) : ByteBuffer :=
  {| buf := resize (length (buf b) + n) 0 (buf b); pos := pos b |}.

Definition data (b : ByteBuffer) : list Z := buf b.

(** [size()] returns [buf.size()] as an [unsigned int]. *)
Definition size (b : ByteBuffer) : Z := u32 (Z.of_nat (length (buf b))).

Definition clear (b : ByteBuffer) : ByteBuffer := {| buf := []; pos := 0 |}.

(** The default constructor: [ByteBuffer() {clear();}]. *)
Definition new : ByteBuffer := {| buf := []; pos := 0 |}.

Definition setPos (newPos : Z) (b : ByteBuffer) : ByteBuffer :=
  {| buf := buf b; pos := newPos |}.

Definition getPos (b : ByteBuffer) : Z := pos b.

(** [load(data, size)] with [data = &m[off]]: reading [size] bytes from
    the pointer needs them to exist. *)
Definition load (m : list Z) (off : nat) (sz : Z) (b : ByteBuffer)
  : option ByteBuffer :=
  if decide (off + Z.to_nat sz ≤ length m)%nat
  then Some {| buf := take (Z.to_nat sz) (drop off m) ++ buf (clear b);
               pos := pos (clear b) |}
  else None.

(** [concat(data, size)]. *)
Definition concat (m : list Z) (off : nat) (sz : Z) (b : ByteBuffer)
  : option ByteBuffer :=
  if decide (off + Z.to_nat sz ≤ length m)%nat
  then Some (advance sz {| buf := buf b ++ take (Z.to_nat sz) (drop off m);
                           pos := pos b |})
  else None.

Definition readU64 (b : ByteBuffer) : option (Z * ByteBuffer) :=
  val ← be64decode (buf b) (Z.to_nat (pos b));
  Some (val, advance 8 b).

Definition writeU64 (val : Z) (b : ByteBuffer) : option ByteBuffer :=
  let b := grow 8 b in
  m ← be64encode val (buf b) (Z.to_nat (pos b));
  Some (advance 8 {| buf := m; pos := pos b |}).

Definition readUint (b : ByteBuffer) : option (Z * ByteBuffer) :=
  val ← be32decode (buf b) (Z.to_nat (pos b));
  Some (val, advance 4 b).

Definition writeUint (val : Z) (b : ByteBuffer) : option ByteBuffer :=
  let b := grow 4 b in
  m ← be32encode val (buf b) (Z.to_nat (pos b));
  Some (advance 4 {| buf := m; pos := pos b |}).

(** [unsigned int tmp; readUint(tmp); val = tmp;] *)
Definition readInt (b : ByteBuffer) : option (Z * ByteBuffer) :=
  '(tmp, b) ← readUint b;
  Some (i32 tmp, b).

(** [unsigned int tmp = val; writeUint(tmp);] *)
Definition writeInt (val : Z) (b : ByteBuffer) : option ByteBuffer :=
  writeUint (u32 val) b.

(** The body of [while (size-- > 0)] in [readRset], run [n] times. *)
Fixpoint readRset_loop (n : nat) (val : gset Z) (b : ByteBuffer)
  : option (gset Z * ByteBuffer) :=
  match n with
  | O => Some (val, b)
  | S n =>
      '(r, b) ← readInt b;
      readRset_loop n ({[r]} ∪ val) b
  end.

Definition readRset (val : gset Z) (b : ByteBuffer)
  : option (gset Z * ByteBuffer) :=
  '(sz, b) ← readUint b;
  readRset_loop (Z.to_nat sz) val b.

(** The body of [while (size-- > 0)] in [readString], run [n] times. *)
Fixpoint readString_loop (n : nat) (val : list ascii) (b : ByteBuffer)
  : option (list ascii * ByteBuffer) :=
  match n with
  | O => Some (val, b)
  | S n =>
      c ← peek (buf b) (Z.to_nat (pos b));
      readString_loop n (val ++ [char_of_byte c]) (advance 1 b)
  end.

Definition readString (val : list ascii) (b : ByteBuffer)
  : option (list ascii * ByteBuffer) :=
  '(sz, b) ← readUint b;
  readString_loop (Z.to_nat sz) val b.

(** The [for] loop of [writeString] over the characters [val[0..size)]. *)
Fixpoint writeString_loop (cs : list ascii) (b : ByteBuffer)
  : option ByteBuffer :=
  match cs with
  | [] => Some b
  | c :: cs =>
      m ← poke (buf b) (Z.to_nat (pos b)) (byte_of_char c);
      writeString_loop cs (advance 1 {| buf := m; pos := pos b |})
  end.

Definition writeString (val : list ascii) (b : ByteBuffer)
  : option ByteBuffer :=
  let sz := u32 (Z.of_nat (length val)) in
  b ← writeUint sz b;
  writeString_loop (take (Z.to_nat sz) val) (grow (Z.to_nat sz) b).

Definition readBool (b : ByteBuffer) : option (bool * ByteBuffer) :=
  c ← peek (buf b) (Z.to_nat (pos b));
  Some (negb (c =? 0), advance 1 b).

Definition writeBool (val : bool) (b : ByteBuffer) : option ByteBuffer :=
  let b := grow 1 b in
  m ← poke (buf b) (Z.to_nat (pos b)) (if val then 1 else 0);
  Some (advance 1 {| buf := m; pos := pos b |}).

(** [readBuffer(buffer)]: the first component is the new [buffer], the
    second is [*this]. *)
Definition readBuffer (buffer : ByteBuffer) (b : ByteBuffer)
  : option (ByteBuffer * ByteBuffer) :=
  '(sz, b) ← readUint b;
  buffer ← load (buf b) (Z.to_nat (pos b)) sz buffer;
  Some (buffer, advance sz b).

(** [writeBuffer(b)]: [o] is the argument, [b] is [*this]. *)
Definition writeBuffer (o : ByteBuffer) (b : ByteBuffer) : option ByteBuffer :=
  b ← writeUint (size o) b;
  Some (advance (size o)
          {| buf := buf b ++ take (Z.to_nat (size o)) (data o); pos := pos b |}).

(** The [for] loop of [writeRset] over the iterator [itr]. *)
Fixpoint writeRset_loop (itr : list Z) (b : ByteBuffer) : option ByteBuffer :=
  match itr with
  | [] => Some b
  | r :: itr =>
      b ← writeInt r b;
      writeRset_loop itr b
  end.

Definition writeRset (val : gset Z) (b : ByteBuffer) : option ByteBuffer :=
  let sz := u32 (Z.of_nat (base.size val)) in
  b ← writeUint sz b;
  writeRset_loop (Resources.current (Resources.ResourceIterator val)) b.

(** [std::string(val)] for a [const char *]: the characters before the
    first NUL of the memory at the pointer; without a NUL the constructor
    reads past the end. *)
Fixpoint cstring (val : list ascii) : option (list ascii) :=
  match val with
  | [] => None
  | c :: val =>
      if decide (c = zero) then Some [] else s ← cstring val; Some (c :: s)
  end.

Definition writeCstring (val : list ascii) (b : ByteBuffer) : option ByteBuffer :=
  s ← cstring val;
  writeString s b.

End ByteBuffer.

(** ** Bitmap *)

Module Bitmap.

(** [uint64_t flags, mask;] *)
Record Bitmap := mk { flags : Z; mask : Z }.

Definition clear (b : Bitmap) : Bitmap := {| flags := 0; mask := mask b |}.

(** [Bitmap(uint8_t maxBits)]: [std::pow(2, maxBits)] is the double
    [2^maxBits]; its conversion to [uint64_t] is defined only when the
    value is below [2^64]. *)
Definition new (maxBits : Z) : option Bitmap :=
  if decide (0 ≤ maxBits < 64)
  then Some {| flags := 0; mask := u64 (u64 (2 ^ maxBits) - 1) |}
  else None.

(** [(uint64_t) 1 << bit], undefined for a shift count of 64 or more. *)
Definition bit_of (bit : Z) : option Z :=
  if decide (0 ≤ bit < 64) then Some (u64 (Z.shiftl 1 bit)) else None.

Definition isSet (bit : Z) (b : Bitmap) : option bool :=
  m ← bit_of bit;
  Some (Z.land (flags b) m >? 0).

Definition isEmpty (b : Bitmap) : bool := flags b =? 0.

Definition isFull (b : Bitmap) : bool := flags b =? mask b.

Definition set (bit : Z) (b : Bitmap) : option Bitmap :=
  m ← bit_of bit;
  Some {| flags := Z.lor (flags b) m; mask := mask b |}.

Definition unset (bit : Z) (b : Bitmap) : option Bitmap :=
  m ← bit_of bit;
  Some {| flags := Z.land (flags b) (Z.lxor (mask b) m); mask := mask b |}.

Definition getFlags (b : Bitmap) : Z := flags b.

(** The mutating member functions, and a run of them that records the
    state reached after each call. *)
Inductive mutation := DoSet (bit : Z) | DoUnset (bit : Z) | DoClear.

Definition mutate (m : mutation) (b : Bitmap) : option Bitmap :=
  match m with
  | DoSet bit => set bit b
  | DoUnset bit => unset bit b
  | DoClear => Some (clear b)
  end.

Fixpoint trace (ms : list mutation) (b : Bitmap) : option (list Bitmap) :=
  match ms with
  | [] => Some []
  | m :: ms =>
      b ← mutate m b;
      bs ← trace ms b;
      Some (b :: bs)
  end.

(** [flags & ~mask == 0] on [uint64_t]. *)
Definition within_mask (b : Bitmap) : Prop :=
  Z.land (flags b) (u64 (Z.lnot (mask b))) = 0.

(** A call whose bit lies in the active range of a bitmap of [maxBits]
    bits ([set]), or in the 64 bits of the word ([unset]). *)
Definition in_range (maxBits : Z) (m : mutation) : Prop :=
  match m with
  | DoSet bit => 0 ≤ bit < maxBits
  | DoUnset bit => 0 ≤ bit < 64
  | DoClear => True
  end.

End Bitmap.

(** ** CombinationGenerator *)

Module CombinationGenerator.

(** *** [std::next_permutation] on a [std::vector<bool>]

    The standard algorithm, with iterators as indices: scan from the back
    for the last position [i] with [a[i] < a[i+1]]; if there is none
    reverse the whole range and return [false]; otherwise swap [a[i]] with
    the last element greater than it, reverse the range after [i] and
    return [true]. *)

Definition at_ (a : list bool) (i : nat) : bool := default false (a !! i).

(** [x < y] on [bool]. *)
Definition lt_bool (x y : bool) : bool := negb x && y.

(** The outer loop: [i1] runs down from [last - 1]; the answer is the
    first [i = i1 - 1] with [a[i] < a[i1]], or none when [i] reaches
    [first]. *)
Fixpoint find_pivot (a : list bool) (i1 : nat) : option nat :=
  match i1 with
  | O => None
  | S i => if lt_bool (at_ a i) (at_ a i1) then Some i else find_pivot a i
  end.

(** The inner loop: [i2] runs down from [last] to the last position whose
    element is greater than [x = a[i]]. *)
Fixpoint find_swap (a : list bool) (x : bool) (i2 : nat) : nat :=
  match i2 with
  | O => O
  | S j => if lt_bool x (at_ a j) then j else find_swap a x j
  end.

Definition iter_swap (a : list bool) (i j : nat) : list bool :=
  <[i := at_ a j]> (<[j := at_ a i]> a).

(** [std::reverse(first + i, last)]. *)
Definition reverse_from (i : nat) (a : list bool) : list bool :=
  take i a ++ reverse (drop i a).

Definition next_permutation (a : list bool) : list bool * bool :=
  match length a with
  | 0%nat | 1%nat => (a, false)
  | S (S _ as i1) =>
      match find_pivot a i1 with
      | Some i =>
          let i2 := find_swap a (at_ a i) (length a) in
          (reverse_from (S i) (iter_swap a i i2), true)
      | None => (reverse a, false)
      end
  end.

Section Generator.
Context {A : Type}.

(** The pool [*from] is the sequence its iterators visit. *)
Record CombinationGenerator := mk {
  bmap : list bool;
  elems : list A;
  from : list A;
  greater : bool;
  ssize : nat
}.

Definition new (pool : list A) (sampleSize : nat) : CombinationGenerator :=
  {| bmap := []; elems := []; from := pool; greater := false;
     ssize := sampleSize |}.

Definition hasNext (g : CombinationGenerator) : bool :=
  greater g
  || (bool_decide (bmap g = []) && bool_decide (ssize g ≤ length (from g))%nat).

(** [std::fill(l.begin() + i, l.end(), v)]; the iterator [l.begin() + i]
    has to lie within the vector. *)
Definition fill_from (i : Z) (v : bool) (l : list bool) : option (list bool) :=
  if decide (0 ≤ i ≤ Z.of_nat (length l))
  then Some (take (Z.to_nat i) l ++ replicate (length l - Z.to_nat i) v)
  else None.

(** The loop [for (i = 0; i < bmap.size(); ++i) if (bmap[i])
    ret.push_back(elems[i]);], walking both vectors together; [elems[i]]
    is read only where [bmap[i]] holds. *)
Fixpoint select (bm : list bool) (es : list A) : option (list A) :=
  match bm with
  | [] => Some []
  | b :: bm =>
      if b then
        match es with
        | [] => None
        | e :: es => ret ← select bm es; Some (e :: ret)
        end
      else select bm (tail es)
  end.

Definition get (g : CombinationGenerator)
  : option (list A * CombinationGenerator) :=
  g ← (if bool_decide (bmap g = []) then
         let n := length (from g) in
         bm ← fill_from (Z.of_nat n - Z.of_nat (ssize g)) true
                (replicate n false);
         Some {| bmap := bm; elems := elems g ++ from g; from := from g;
                 greater := greater g; ssize := ssize g |}
       else Some g);
  ret ← select (bmap g) (elems g);
  let '(bm, gr) := next_permutation (bmap g) in
  Some (ret, {| bmap := bm; elems := elems g; from := from g;
                greater := gr; ssize := ssize g |}).

(** The caller's loop [while (gen.hasNext()) out.push_back(gen.get());],
    cut off after [fuel] iterations ([None] when the loop is still running
    then, or when a call is undefined). *)
Fixpoint drive (fuel : nat) (g : CombinationGenerator)
  : option (list (list A) * CombinationGenerator) :=
  if hasNext g then
    match fuel with
    | O => None
    | S fuel =>
        '(c, g) ← get g;
        '(cs, g) ← drive fuel g;
        Some (c :: cs, g)
    end
  else Some ([], g).

End Generator.
Arguments CombinationGenerator : clear implicits.

End CombinationGenerator.

(** ** RandomGenerator *)

Module RandomGenerator.
Section Generator.
Context {K V : Type}.

(** The pool [*from] is a [std::map<K, V>], given by the key/value pairs
    its iterators visit; the keys of a map are pairwise distinct. *)
Record RandomGenerator := mk { elems : list K; from : list (K * V) }.

Definition new (pool : list (K * V)) : RandomGenerator :=
  {| elems := []; from := pool |}.

Definition reset (g : RandomGenerator) : RandomGenerator :=
  {| elems := []; from := from g |}.

(** [get()], where [r] is the value the call to [rand()] returns.  With
    an empty pool the assertion fails, or the modulus is zero. *)
Definition get (r : nat) (g : RandomGenerator) : option (K * RandomGenerator) :=
  let g := if bool_decide (elems g = [])
           then {| elems := elems g ++ (from g).*1; from := from g |}
           else g in
  if decide (length (elems g) = 0)%nat then None
  else
    let itr := (r mod length (elems g))%nat in
    ret ← elems g !! itr;
    Some (ret, {| elems := delete itr (elems g); from := from g |}).

(** Successive calls of [get()], one per value of the random source. *)
Fixpoint gets (rs : list nat) (g : RandomGenerator)
  : option (list K * RandomGenerator) :=
  match rs with
  | [] => Some ([], g)
  | r :: rs =>
      '(k, g) ← get r g;
      '(ks, g) ← gets rs g;
      Some (k :: ks, g)
  end.

End Generator.
Arguments RandomGenerator : clear implicits.

End RandomGenerator.

(** * Specification vocabulary *)

(** The [k]-th least significant byte of [val]. *)
Definition byte_at (val : Z) (k : Z) : Z := (val / 2 ^ (8 * k)) mod 256.

(** Big-endian byte strings: most significant byte first. *)
Definition be64bytes (val : Z) : list Z :=
  [byte_at val 7; byte_at val 6; byte_at val 5; byte_at val 4;
   byte_at val 3; byte_at val 2; byte_at val 1; byte_at val 0].

Definition be32bytes (val : Z) : list Z :=
  [byte_at val 3; byte_at val 2; byte_at val 1; byte_at val 0].

(** [m] with the bytes [bs] stored in place from offset [off] on. *)
Definition overwrite (off : nat) (bs m : list Z) : list Z :=
  take off m ++ bs ++ drop (off + length bs) m.

(** The wire form of a sequence of [int]s: four big-endian bytes each. *)
Definition int_bytes (ints : list Z) : list Z :=
  ints ≫= (λ i, be32bytes (u32 i)).

(** A write that appends at the tail: the new content is the
    old content followed by the bytes written, and the position moves by
    their number. *)
Definition appends_at_tail
    (write : ByteBuffer.ByteBuffer → option ByteBuffer.ByteBuffer)
    (b : ByteBuffer.ByteBuffer) : Prop :=
  ∃ b' enc, write b = Some b'
            ∧ ByteBuffer.buf b' = ByteBuffer.buf b ++ enc
            ∧ ByteBuffer.pos b' = ByteBuffer.pos b + Z.of_nat (length enc).

(** A run of [true] followed by a run of [false]: the shape of a vector
    with no greater permutation. *)
Definition descending (a b : nat) : list bool :=
  replicate a true ++ replicate b false.

(** A vector with a greater permutation: a prefix, a [false], and a
    descending rest that starts with [true]. *)
Definition with_pivot (p : list bool) (a b : nat) : list bool :=
  p ++ false :: descending (S a) b.

(** n choose k, by Pascal's rule. *)
Fixpoint binom (n k : nat) : nat :=
  match n, k with
  | _, O => 1
  | O, S _ => 0
  | S n', S k' => binom n' k' + binom n' k
  end.

(** The selection vectors of length [n] with [k] positions selected, in
    increasing lexicographic order ([false] before [true]). *)
Fixpoint masks (n k : nat) : list (list bool) :=
  match n with
  | O => match k with O => [[]] | S _ => [] end
  | S n' =>
      (cons false <$> masks n' k)
      ++ match k with O => [] | S k' => cons true <$> masks n' k' end
  end.

(** The elements of [es] at the selected positions of [bm]. *)
Fixpoint pick {A} (bm : list bool) (es : list A) : list A :=
  match bm, es with
  | b :: bm, e :: es => if b then e :: pick bm es else pick bm es
  | _, _ => []
  end.

(** [chain m l e]: [l] lists the vectors met when [next_permutation] is
    iterated from [m] for as long as it returns [true], and [e] is the
    last of them. *)
Inductive chain : list bool → list (list bool) → list bool → Prop :=
  | chain_one m : chain m [m] m
  | chain_step m m' l e :
      CombinationGenerator.next_permutation m = (m', true) →
      chain m' l e → chain m (m :: l) e.

(** The first vector of the enumeration: the last [k] positions. *)
Definition lowest (n k : nat) : list bool :=
  replicate (n - k) false ++ replicate k true.

(** Enumerating the combinations of one pool and sample size: the loop ends, and
    the lists it has produced are C(n, k) in number, pairwise distinct,
    each of [k] elements of the pool. *)
Definition enumerates_combinations {A} (pool : list A) (k : nat) : Prop :=
  ∃ fuel cs g,
    CombinationGenerator.drive fuel (CombinationGenerator.new pool k) = Some (cs, g)
    ∧ length cs = binom (length pool) k
    ∧ NoDup cs
    ∧ Forall (λ c, length c = k ∧ c ⊆ pool) cs.

(** A field of a message: one value of one of the types the buffer
    serialises. *)
Inductive field :=
  | FU64 (v : Z)
  | FUint (v : Z)
  | FInt (v : Z)
  | FBool (v : bool)
  | FString (s : list ascii)
  | FRset (s : gset Z)
  | FBuffer (o : ByteBuffer.ByteBuffer).

(** The write call of a field. *)
Definition write_field (f : field) (b : ByteBuffer.ByteBuffer)
  : option ByteBuffer.ByteBuffer :=
  match f with
  | FU64 v => ByteBuffer.writeU64 v b
  | FUint v => ByteBuffer.writeUint v b
  | FInt v => ByteBuffer.writeInt v b
  | FBool v => ByteBuffer.writeBool v b
  | FString s => ByteBuffer.writeString s b
  | FRset s => ByteBuffer.writeRset s b
  | FBuffer o => ByteBuffer.writeBuffer o b
  end.

(** The read call for a field of the type of [kind], into a fresh
    output. *)
Definition read_field (kind : field) (b : ByteBuffer.ByteBuffer)
  : option (field * ByteBuffer.ByteBuffer) :=
  match kind with
  | FU64 _ => '(v, b) ← ByteBuffer.readU64 b; Some (FU64 v, b)
  | FUint _ => '(v, b) ← ByteBuffer.readUint b; Some (FUint v, b)
  | FInt _ => '(v, b) ← ByteBuffer.readInt b; Some (FInt v, b)
  | FBool _ => '(v, b) ← ByteBuffer.readBool b; Some (FBool v, b)
  | FString _ => '(v, b) ← ByteBuffer.readString [] b; Some (FString v, b)
  | FRset _ => '(v, b) ← ByteBuffer.readRset ∅ b; Some (FRset v, b)
  | FBuffer _ =>
      '(v, b) ← ByteBuffer.readBuffer ByteBuffer.new b; Some (FBuffer v, b)
  end.

(** Successive writes, and successive reads. *)
Fixpoint write_fields (fs : list field) (b : ByteBuffer.ByteBuffer)
  : option ByteBuffer.ByteBuffer :=
  match fs with
  | [] => Some b
  | f :: fs => b ← write_field f b; write_fields fs b
  end.

Fixpoint read_fields (kinds : list field) (b : ByteBuffer.ByteBuffer)
  : option (list field * ByteBuffer.ByteBuffer) :=
  match kinds with
  | [] => Some ([], b)
  | kind :: kinds =>
      '(f, b) ← read_field kind b;
      '(fs, b) ← read_fields kinds b;
      Some (f :: fs, b)
  end.

(** The wire form of a field. *)
Definition wire (f : field) : list Z :=
  match f with
  | FU64 v => be64bytes v
  | FUint v => be32bytes v
  | FInt v => be32bytes (u32 v)
  | FBool v => [if v then 1 else 0]
  | FString s => be32bytes (Z.of_nat (length s)) ++ (byte_of_char <$> s)
  | FRset s =>
      be32bytes (Z.of_nat (base.size s)) ++ int_bytes (Resources.ResourceSet_seq s)
  | FBuffer o =>
      be32bytes (Z.of_nat (length (ByteBuffer.buf o))) ++ ByteBuffer.buf o
  end.

(** The values of the C++ parameter types. *)
Definition representable (f : field) : Prop :=
  match f with
  | FU64 v => 0 ≤ v < 2 ^ 64
  | FUint v => 0 ≤ v < 2 ^ 32
  | FInt v => - 2 ^ 31 ≤ v < 2 ^ 31
  | FRset s => set_Forall (λ i, - 2 ^ 31 ≤ i < 2 ^ 31) s
  | FBool _ | FString _ | FBuffer _ => True
  end.

(** What a read returns for a field written: a nested buffer comes back
    with its cursor at 0. *)
Definition as_read (f : field) : field :=
  match f with
  | FBuffer o => FBuffer {| ByteBuffer.buf := ByteBuffer.buf o; ByteBuffer.pos := 0 |}
  | _ => f
  end.

(** Successive mutations of a bitmap, keeping the last state. *)
Fixpoint mutate_all (ms : list Bitmap.mutation) (b : Bitmap.Bitmap)
  : option Bitmap.Bitmap :=
  match ms with
  | [] => Some b
  | m :: ms => b ← Bitmap.mutate m b; mutate_all ms b
  end.

(** The pointers of a range that are not [NULL], and the range with every
    pointer set to [NULL]. *)
Definition pointers {K} (range : list (K * option positive)) : list positive :=
  omap snd range.

Definition nulled {K} (range : list (K * option positive))
  : list (K * option positive) :=
  (λ kv, (kv.1, None)) <$> range.

(** The lexicographic order of selection vectors, [false] before [true]:
    the order [std::next_permutation] advances in. *)
Fixpoint mask_ltb (a b : list bool) : bool :=
  match a, b with
  | x :: a, y :: b => if Bool.eqb x y then mask_ltb a b else negb x && y
  | [], _ :: _ => true
  | _, [] => false
  end.

Definition mask_lt (a b : list bool) : Prop := mask_ltb a b = true.

(** The first [n] iterations of the caller's loop
    [while (gen.hasNext()) out.push_back(gen.get());]: the combinations
    produced so far and the state reached; [None] only when a call of
    [get()] is undefined. *)
Fixpoint iterations {A} (n : nat)
    (g : CombinationGenerator.CombinationGenerator A)
  : option (list (list A) * CombinationGenerator.CombinationGenerator A) :=
  match n with
  | O => Some ([], g)
  | S n =>
      if CombinationGenerator.hasNext g then
        '(c, g) ← CombinationGenerator.get g;
        '(cs, g) ← iterations n g;
        Some (c :: cs, g)
      else Some ([], g)
  end.

(** * Integer conversions and bit arithmetic *)

Section Integers.

Lemma u32_small z : 0 ≤ z < 2 ^ 32 → u32 z = z.
Proof. apply Z.mod_small. Qed.

Lemma u64_small z : 0 ≤ z < 2 ^ 64 → u64 z = z.
Proof. apply Z.mod_small. Qed.

Lemma i32_small z : - 2 ^ 31 ≤ z < 2 ^ 31 → i32 z = z.
Proof. intros. unfold i32. rewrite Z.mod_small; lia. Qed.

Lemma u32_range z : 0 ≤ u32 z < 2 ^ 32.
Proof. apply Z.mod_pos_bound. lia. Qed.

Lemma u32_i32 z : u32 (i32 z) = u32 z.
Proof.
  unfold u32, i32.
  rewrite <- Zminus_mod_idemp_l, Zmod_mod, Zminus_mod_idemp_l.
  f_equal. lia.
Qed.

Lemma i32_u32 z : i32 (u32 z) = i32 z.
Proof. unfold u32, i32. by rewrite Zplus_mod_idemp_l. Qed.

Lemma u32_add_l a b : u32 (u32 a + b) = u32 (a + b).
Proof. unfold u32. by rewrite Zplus_mod_idemp_l. Qed.

Lemma u32_lor a b : u32 (Z.lor a b) = Z.lor (u32 a) (u32 b).
Proof.
  unfold u32. rewrite <- !Z.land_ones by lia. apply Z.land_lor_distr_l.
Qed.

Lemma land_shiftr_byte val k s :
  s = 8 * k → 0 ≤ k → Z.land (Z.shiftr val s) 255 = byte_at val k.
Proof.
  intros -> Hk. unfold byte_at. rewrite Z.shiftr_div_pow2 by lia.
  change 255 with (Z.ones 8). by rewrite Z.land_ones by lia.
Qed.

Lemma land_byte0 val : Z.land val 255 = byte_at val 0.
Proof. by rewrite <- (land_shiftr_byte val 0 0), Z.shiftr_0_r. Qed.

Lemma byte_at_range val k : 0 ≤ byte_at val k < 256.
Proof. unfold byte_at. apply Z.mod_pos_bound. lia. Qed.

Lemma byte_at_testbit val k s n :
  s = 8 * k → 0 ≤ k → 0 ≤ n →
  Z.testbit (Z.shiftl (byte_at val k) s) n
  = (s <=? n) && (n <? s + 8) && Z.testbit val n.
Proof.
  intros -> Hk Hn. rewrite <- (land_shiftr_byte val k (8 * k)) by done.
  rewrite Z.shiftl_spec by done.
  destruct (Z.leb_spec (8 * k) n) as [Hle|Hlt].
  - rewrite Z.land_spec, Z.shiftr_spec by lia.
    change 255 with (Z.ones 8). rewrite Z.testbit_ones by lia.
    replace (n - 8 * k + 8 * k) with n by lia.
    replace (0 <=? n - 8 * k) with true by (symmetry; apply Z.leb_le; lia).
    replace (n - 8 * k <? 8) with (n <? 8 * k + 8).
    + simpl. apply andb_comm.
    + destruct (Z.ltb_spec n (8 * k + 8)), (Z.ltb_spec (n - 8 * k) 8);
        lia || done.
  - by rewrite Z.testbit_neg_r by lia.
Qed.

Lemma testbit_above v w n : 0 ≤ v < 2 ^ w → 0 ≤ w ≤ n → Z.testbit v n = false.
Proof.
  intros Hv Hw. rewrite <- (Z.mod_small v (2 ^ w)) by done.
  apply Z.mod_pow2_bits_high. lia.
Qed.

Lemma shiftl_byte_small b k s w :
  s = 8 * k → 0 ≤ b < 256 → 0 ≤ k → s + 8 ≤ w → 0 ≤ Z.shiftl b s < 2 ^ w.
Proof.
  intros -> Hb Hk Hw. rewrite Z.shiftl_mul_pow2 by lia.
  assert (2 ^ w = 2 ^ (8 * k) * 2 ^ 8 * 2 ^ (w - 8 * k - 8)) as ->.
  { rewrite <- !Z.pow_add_r by lia. f_equal. lia. }
  assert (0 < 2 ^ (8 * k)) by (apply Z.pow_pos_nonneg; lia).
  assert (0 < 2 ^ (w - 8 * k - 8)) by (apply Z.pow_pos_nonneg; lia).
  change (2 ^ 8) with 256. nia.
Qed.

End Integers.

(** Replaces every comparison of the goal that [lia] can settle by its
    value. *)
Ltac decide_cmp :=
  repeat match goal with
  | |- context [?a <=? ?b] =>
      first [ replace (a <=? b) with true by (symmetry; apply Z.leb_le; lia)
            | replace (a <=? b) with false by (symmetry; apply Z.leb_gt; lia) ]
  | |- context [?a <? ?b] =>
      first [ replace (a <? b) with true by (symmetry; apply Z.ltb_lt; lia)
            | replace (a <? b) with false by (symmetry; apply Z.ltb_ge; lia) ]
  end.

Section Combine.

(** Or-ing the shifted bytes of a value gives the value back. *)
Lemma be32_combine v :
  0 ≤ v < 2 ^ 32 →
  Z.lor (Z.lor (Z.lor (Z.shiftl (byte_at v 0) 0) (Z.shiftl (byte_at v 1) 8))
    (Z.shiftl (byte_at v 2) 16)) (Z.shiftl (byte_at v 3) 24) = v.
Proof.
  intros Hv. apply Z.bits_inj'. intros n Hn.
  rewrite !Z.lor_spec.
  rewrite (byte_at_testbit v 0), (byte_at_testbit v 1),
    (byte_at_testbit v 2), (byte_at_testbit v 3) by lia.
  assert (n < 8 ∨ 8 ≤ n < 16 ∨ 16 ≤ n < 24 ∨ 24 ≤ n < 32 ∨ 32 ≤ n) as Hc by lia.
  destruct Hc as [?|[?|[?|[?|?]]]]; decide_cmp; simpl;
    rewrite ?orb_false_r; try done.
  symmetry. by apply (testbit_above v 32).
Qed.

Lemma be64_combine v :
  0 ≤ v < 2 ^ 64 →
  Z.lor (Z.lor (Z.lor (Z.lor (Z.lor (Z.lor (Z.lor
    (Z.shiftl (byte_at v 0) 0) (Z.shiftl (byte_at v 1) 8))
    (Z.shiftl (byte_at v 2) 16)) (Z.shiftl (byte_at v 3) 24))
    (Z.shiftl (byte_at v 4) 32)) (Z.shiftl (byte_at v 5) 40))
    (Z.shiftl (byte_at v 6) 48)) (Z.shiftl (byte_at v 7) 56) = v.
Proof.
  intros Hv. apply Z.bits_inj'. intros n Hn.
  rewrite !Z.lor_spec.
  rewrite (byte_at_testbit v 0), (byte_at_testbit v 1),
    (byte_at_testbit v 2), (byte_at_testbit v 3), (byte_at_testbit v 4),
    (byte_at_testbit v 5), (byte_at_testbit v 6), (byte_at_testbit v 7) by lia.
  assert (n < 8 ∨ 8 ≤ n < 16 ∨ 16 ≤ n < 24 ∨ 24 ≤ n < 32 ∨ 32 ≤ n < 40
          ∨ 40 ≤ n < 48 ∨ 48 ≤ n < 56 ∨ 56 ≤ n < 64 ∨ 64 ≤ n) as Hc by lia.
  destruct Hc as [?|[?|[?|[?|[?|[?|[?|[?|?]]]]]]]]; decide_cmp; simpl;
    rewrite ?orb_false_r; try done.
  symmetry. by apply (testbit_above v 64).
Qed.

End Combine.

(** * Raw memory and the codec *)

Section Memory.
Import Endian.

Lemma split_at (m : list Z) (off n : nat) :
  (off + n ≤ length m)%nat →
  ∃ p w r, m = p ++ w ++ r ∧ length p = off ∧ length w = n
           ∧ p = take off m ∧ r = drop (off + n) m.
Proof.
  intros H. exists (take off m), (take n (drop off m)), (drop (off + n) m).
  split_and!; try done.
  - rewrite <- drop_drop. by rewrite !take_drop.
  - rewrite length_take. lia.
  - rewrite length_take, length_drop. lia.
Qed.

Lemma poke_window (p w r : list Z) (off i : nat) (v : Z) :
  off = length p → (i < length w)%nat →
  poke (p ++ w ++ r) (off + i) v = Some (p ++ <[i:=v]> w ++ r).
Proof.
  intros -> Hi. unfold poke. rewrite decide_True.
  - f_equal. rewrite insert_app_r. by rewrite insert_app_l.
  - rewrite !length_app. lia.
Qed.

Lemma poke_window0 (p w r : list Z) (off : nat) (v : Z) :
  off = length p → (0 < length w)%nat →
  poke (p ++ w ++ r) off v = Some (p ++ <[0%nat:=v]> w ++ r).
Proof. intros. rewrite <- (Nat.add_0_r off) at 1. by apply poke_window. Qed.

Lemma peek_window (p w r : list Z) (off i : nat) :
  off = length p → (i < length w)%nat →
  peek (p ++ w ++ r) (off + i) = w !! i.
Proof.
  intros -> Hi. unfold peek.
  rewrite lookup_app_r by lia. rewrite lookup_app_l by lia.
  f_equal. lia.
Qed.

Lemma peek_window0 (p w r : list Z) (off : nat) :
  off = length p → (0 < length w)%nat →
  peek (p ++ w ++ r) off = w !! 0%nat.
Proof. intros. rewrite <- (Nat.add_0_r off) at 1. by apply peek_window. Qed.

Lemma length_overwrite off bs m :
  (off + length bs ≤ length m)%nat → length (overwrite off bs m) = length m.
Proof.
  intros H. unfold overwrite.
  rewrite !length_app, length_take, length_drop. lia.
Qed.

Lemma overwrite_nil off m : overwrite off [] m = m.
Proof. unfold overwrite. simpl. rewrite Nat.add_0_r. apply take_drop. Qed.

Lemma overwrite_window p w r off bs :
  off = length p → length bs = length w →
  overwrite off bs (p ++ w ++ r) = p ++ bs ++ r.
Proof.
  intros -> Hw. unfold overwrite.
  rewrite take_app_length. rewrite drop_app_add.
  by rewrite Hw, drop_app_length.
Qed.

(** Storing a byte and then a run right after it stores the longer run. *)
Lemma overwrite_cons off c cs m :
  (off + S (length cs) ≤ length m)%nat →
  overwrite (S off) cs (<[off:=c]> m) = overwrite off (c :: cs) m.
Proof.
  intros H.
  destruct (split_at m off (S (length cs)) H) as (p & w & r & -> & Hp & Hw & _).
  destruct w as [|x w]; [discriminate|]. injection Hw as Hw.
  rewrite (overwrite_window p (x :: w) r off (c :: cs)) by (simpl; congruence).
  rewrite insert_app_r_alt by lia.
  replace (off - length p)%nat with 0%nat by lia. cbn [app insert list_insert].
  replace (p ++ c :: w ++ r) with ((p ++ [c]) ++ w ++ r)
    by (by rewrite <- app_assoc).
  rewrite (overwrite_window (p ++ [c]) w r (S off) cs).
  - by rewrite <- app_assoc.
  - rewrite length_app. simpl. lia.
  - done.
Qed.

Lemma be64encode_spec val m off :
  (off + 8 ≤ length m)%nat →
  be64encode val m off = Some (overwrite off (be64bytes val) m).
Proof.
  intros H.
  destruct (split_at m off 8 H) as (p & w & r & -> & Hp & Hw & _).
  rewrite (overwrite_window p w r) by done.
  do 9 (destruct w as [|? w]; try discriminate). clear Hw H.
  unfold be64encode, be64bytes.
  rewrite poke_window0 by (done || simpl; lia). cbn [mbind option_bind].
  do 7 (rewrite poke_window by (done || simpl; lia); cbn [mbind option_bind]).
  cbn [list_insert insert].
  rewrite (land_shiftr_byte val 7), (land_shiftr_byte val 6),
    (land_shiftr_byte val 5), (land_shiftr_byte val 4),
    (land_shiftr_byte val 3), (land_shiftr_byte val 2),
    (land_shiftr_byte val 1), land_byte0 by lia.
  done.
Qed.

Lemma be32encode_spec val m off :
  (off + 4 ≤ length m)%nat →
  be32encode val m off = Some (overwrite off (be32bytes val) m).
Proof.
  intros H.
  destruct (split_at m off 4 H) as (p & w & r & -> & Hp & Hw & _).
  rewrite (overwrite_window p w r) by done.
  do 5 (destruct w as [|? w]; try discriminate). clear Hw H.
  unfold be32encode, be32bytes.
  rewrite poke_window0 by (done || simpl; lia). cbn [mbind option_bind].
  do 3 (rewrite poke_window by (done || simpl; lia); cbn [mbind option_bind]).
  cbn [list_insert insert].
  rewrite (land_shiftr_byte val 3), (land_shiftr_byte val 2),
    (land_shiftr_byte val 1), land_byte0 by lia.
  done.
Qed.

Lemma be32decode_bytes p r off v :
  off = length p → 0 ≤ v < 2 ^ 32 →
  be32decode (p ++ be32bytes v ++ r) off = Some v.
Proof.
  intros Hp Hv. unfold be32decode, be32bytes.
  rewrite (peek_window0 p _ r off) by (done || simpl; lia).
  cbn [mbind option_bind].
  do 3 (rewrite (peek_window p _ r off) by (done || simpl; lia); cbn [mbind option_bind]).
  cbn [lookup list_lookup mbind option_bind]. f_equal.
  pose proof (byte_at_range v 0). pose proof (byte_at_range v 1).
  pose proof (byte_at_range v 2). pose proof (byte_at_range v 3).
  rewrite !u32_lor, !u32_i32.
  rewrite (u32_small (Z.shiftl (byte_at v 0) 0))
    by (apply (shiftl_byte_small _ 0); lia).
  rewrite (u32_small (Z.shiftl (byte_at v 1) 8))
    by (apply (shiftl_byte_small _ 1); lia).
  rewrite (u32_small (Z.shiftl (byte_at v 2) 16))
    by (apply (shiftl_byte_small _ 2); lia).
  rewrite (u32_small (Z.shiftl (byte_at v 3) 24))
    by (apply (shiftl_byte_small _ 3); lia).
  by apply be32_combine.
Qed.

Lemma be64decode_bytes p r off v :
  off = length p → 0 ≤ v < 2 ^ 64 →
  be64decode (p ++ be64bytes v ++ r) off = Some v.
Proof.
  intros Hp Hv. unfold be64decode, be64bytes.
  rewrite (peek_window0 p _ r off) by (done || simpl; lia).
  cbn [mbind option_bind].
  do 7 (rewrite (peek_window p _ r off) by (done || simpl; lia); cbn [mbind option_bind]).
  cbn [lookup list_lookup mbind option_bind]. f_equal.
  pose proof (byte_at_range v 0).
  rewrite (i32_small (Z.shiftl (byte_at v 0) 0))
    by (rewrite Z.shiftl_0_r; lia).
  rewrite (u64_small (Z.shiftl (byte_at v 0) 0))
    by (apply (shiftl_byte_small _ 0); lia).
  rewrite (u64_small (Z.shiftl (byte_at v 1) 8))
    by (apply (shiftl_byte_small _ 1); [lia|apply byte_at_range|lia|lia]).
  rewrite (u64_small (Z.shiftl (byte_at v 2) 16))
    by (apply (shiftl_byte_small _ 2); [lia|apply byte_at_range|lia|lia]).
  rewrite (u64_small (Z.shiftl (byte_at v 3) 24))
    by (apply (shiftl_byte_small _ 3); [lia|apply byte_at_range|lia|lia]).
  rewrite (u64_small (Z.shiftl (byte_at v 4) 32))
    by (apply (shiftl_byte_small _ 4); [lia|apply byte_at_range|lia|lia]).
  rewrite (u64_small (Z.shiftl (byte_at v 5) 40))
    by (apply (shiftl_byte_small _ 5); [lia|apply byte_at_range|lia|lia]).
  rewrite (u64_small (Z.shiftl (byte_at v 6) 48))
    by (apply (shiftl_byte_small _ 6); [lia|apply byte_at_range|lia|lia]).
  rewrite (u64_small (Z.shiftl (byte_at v 7) 56))
    by (apply (shiftl_byte_small _ 7); [lia|apply byte_at_range|lia|lia]).
  by apply be64_combine.
Qed.

End Memory.

(** * ByteBuffer: what the operations compute *)

Section ByteBufferFacts.
Import Endian ByteBuffer.

Lemma buf_grow n b : buf (grow n b) = buf b ++ replicate n 0.
Proof. unfold grow. simpl. by apply resize_add_eq. Qed.

Lemma char_of_byte_of_char c : char_of_byte (byte_of_char c) = c.
Proof.
  unfold char_of_byte, byte_of_char. rewrite N2Z.id. apply ascii_N_embedding.
Qed.

Lemma chars_of_bytes_of_chars (s : list ascii) :
  char_of_byte <$> (byte_of_char <$> s) = s.
Proof.
  induction s as [|c s IH]; [done|].
  rewrite !fmap_cons, char_of_byte_of_char. by f_equal.
Qed.

Lemma overwrite_app_l off bs m z :
  (off + length bs ≤ length m)%nat →
  overwrite off bs (m ++ z) = overwrite off bs m ++ z.
Proof.
  intros H. unfold overwrite.
  rewrite take_app_le by lia. rewrite drop_app_le by lia.
  by rewrite <- !app_assoc.
Qed.

Lemma overwrite_adjacent off a c m :
  (off + length a + length c ≤ length m)%nat →
  overwrite (off + length a) c (overwrite off a m) = overwrite off (a ++ c) m.
Proof.
  intros H.
  destruct (split_at m off (length a + length c)) as (p & w & r & -> & Hp & Hw & _);
    [lia|].
  destruct (split_at w (length a) (length c)) as (w1 & w2 & w3 & -> & H1 & H2 & _);
    [lia|].
  assert (w3 = []) as ->.
  { apply length_zero_iff_nil. rewrite !length_app in Hw. lia. }
  rewrite app_nil_r.
  rewrite (overwrite_window p (w1 ++ w2) r off (a ++ c))
    by (rewrite ?length_app; lia).
  replace (p ++ (w1 ++ w2) ++ r) with (p ++ w1 ++ (w2 ++ r))
    by (by rewrite <- !app_assoc).
  rewrite (overwrite_window p w1 (w2 ++ r) off a) by lia.
  replace (p ++ a ++ w2 ++ r) with ((p ++ a) ++ w2 ++ r)
    by (by rewrite <- !app_assoc).
  rewrite (overwrite_window (p ++ a) w2 r (off + length a) c)
    by (rewrite ?length_app; lia).
  by rewrite <- !app_assoc.
Qed.

Lemma writeU64_spec val b :
  0 ≤ pos b ≤ Z.of_nat (length (buf b)) →
  writeU64 val b
  = Some {| buf := overwrite (Z.to_nat (pos b)) (be64bytes val)
                     (buf b ++ replicate 8 0);
            pos := u32 (pos b + 8) |}.
Proof.
  intros H. unfold writeU64. cbn zeta.
  rewrite be64encode_spec.
  - by rewrite buf_grow.
  - rewrite buf_grow, length_app, length_replicate. simpl. lia.
Qed.

Lemma writeUint_spec val b :
  0 ≤ pos b ≤ Z.of_nat (length (buf b)) →
  writeUint val b
  = Some {| buf := overwrite (Z.to_nat (pos b)) (be32bytes val)
                     (buf b ++ replicate 4 0);
            pos := u32 (pos b + 4) |}.
Proof.
  intros H. unfold writeUint. cbn zeta.
  rewrite be32encode_spec.
  - by rewrite buf_grow.
  - rewrite buf_grow, length_app, length_replicate. simpl. lia.
Qed.

Lemma poke_spec m i v :
  (i < length m)%nat → poke m i v = Some (overwrite i [v] m).
Proof.
  intros H. unfold poke. rewrite decide_True by done. f_equal.
  destruct (split_at m i 1) as (p & w & r & -> & Hp & Hw & _); [lia|].
  destruct w as [|x [|? ?]]; try discriminate.
  rewrite (overwrite_window p [x] r i [v]) by done.
  rewrite insert_app_r_alt by lia.
  by replace (i - length p)%nat with 0%nat by lia.
Qed.

Lemma writeBool_spec val b :
  0 ≤ pos b ≤ Z.of_nat (length (buf b)) →
  writeBool val b
  = Some {| buf := overwrite (Z.to_nat (pos b)) [if val then 1 else 0]
                     (buf b ++ replicate 1 0);
            pos := u32 (pos b + 1) |}.
Proof.
  intros H. unfold writeBool. cbn zeta.
  rewrite poke_spec.
  - by rewrite buf_grow.
  - rewrite buf_grow, length_app, length_replicate. simpl. lia.
Qed.

Lemma writeString_loop_spec cs : ∀ b,
  0 ≤ pos b →
  pos b + Z.of_nat (length cs) < 2 ^ 32 →
  (Z.to_nat (pos b) + length cs ≤ length (buf b))%nat →
  writeString_loop cs b
  = Some {| buf := overwrite (Z.to_nat (pos b)) (byte_of_char <$> cs) (buf b);
            pos := pos b + Z.of_nat (length cs) |}.
Proof.
  induction cs as [|c cs IH]; intros [m p] H0 H1 H2; simpl in *.
  - rewrite overwrite_nil. do 2 f_equal. lia.
  - unfold poke. rewrite decide_True by lia. cbn [mbind option_bind].
    unfold advance. simpl.
    rewrite u32_small by lia.
    rewrite IH; simpl; try lia.
    + do 2 f_equal; [|lia].
      replace (Z.to_nat (p + 1)) with (S (Z.to_nat p)) by lia.
      rewrite overwrite_cons; [done|]. rewrite length_fmap. lia.
    + rewrite length_insert. lia.
Qed.

Lemma writeString_spec val b :
  0 ≤ pos b ≤ Z.of_nat (length (buf b)) →
  Z.of_nat (length (buf b)) + 4 + Z.of_nat (length val) < 2 ^ 32 →
  writeString val b
  = Some {| buf := overwrite (Z.to_nat (pos b))
                     (be32bytes (Z.of_nat (length val)) ++ (byte_of_char <$> val))
                     (buf b ++ replicate (4 + length val) 0);
            pos := pos b + 4 + Z.of_nat (length val) |}.
Proof.
  intros H0 H1. unfold writeString. cbn zeta.
  rewrite (u32_small (Z.of_nat (length val))) by lia.
  rewrite writeUint_spec by done. cbn [mbind option_bind].
  rewrite Nat2Z.id, firstn_all.
  assert (length (overwrite (Z.to_nat (pos b))
            (be32bytes (Z.of_nat (length val))) (buf b ++ replicate 4 0))
          = (length (buf b) + 4)%nat) as Hlen.
  { rewrite length_overwrite; rewrite length_app, length_replicate; simpl; lia. }
  set (b1 := {| buf := overwrite (Z.to_nat (pos b))
                         (be32bytes (Z.of_nat (length val)))
                         (buf b ++ replicate 4 0);
                pos := u32 (pos b + 4) |}).
  assert (pos (grow (length val) b1) = pos b + 4) as Hpos
    by (unfold b1; cbn [grow pos]; apply u32_small; lia).
  assert (buf (grow (length val) b1) = buf b1 ++ replicate (length val) 0)
    as Hbuf by apply buf_grow.
  rewrite writeString_loop_spec; rewrite ?Hpos, ?Hbuf; unfold b1; cbn [buf];
    try lia.
  - do 2 f_equal.
    replace (Z.to_nat (pos b + 4))
      with (Z.to_nat (pos b) + length (be32bytes (Z.of_nat (length val))))%nat
      by (cbn [be32bytes length]; lia).
    rewrite <- overwrite_app_l.
    2: { rewrite length_app, length_replicate. cbn [be32bytes length]. lia. }
    rewrite overwrite_adjacent.
    2: { rewrite !length_app, !length_replicate, length_fmap.
         cbn [be32bytes length]. lia. }
    by rewrite <- app_assoc, <- replicate_add.
  - rewrite length_app, length_replicate, Hlen. lia.
Qed.

Lemma writeBuffer_spec o b :
  0 ≤ pos b ≤ Z.of_nat (length (buf b)) →
  Z.of_nat (length (buf b)) + 4 + Z.of_nat (length (buf o)) < 2 ^ 32 →
  writeBuffer o b
  = Some {| buf := overwrite (Z.to_nat (pos b))
                     (be32bytes (Z.of_nat (length (buf o))))
                     (buf b ++ replicate 4 0) ++ buf o;
            pos := pos b + 4 + Z.of_nat (length (buf o)) |}.
Proof.
  intros H0 H1. unfold writeBuffer, size, data.
  rewrite (u32_small (Z.of_nat (length (buf o)))) by lia.
  rewrite writeUint_spec by done. cbn [mbind option_bind].
  unfold advance. simpl.
  rewrite Nat2Z.id, firstn_all.
  rewrite (u32_small (pos b + 4)) by lia.
  by rewrite u32_small by lia.
Qed.

End ByteBufferFacts.

Section ByteBufferReads.
Import Endian ByteBuffer.

Lemma readUint_bytes p r v z :
  z = Z.of_nat (length p) → 0 ≤ v < 2 ^ 32 → z + 4 < 2 ^ 32 →
  readUint {| buf := p ++ be32bytes v ++ r; pos := z |}
  = Some (v, {| buf := p ++ be32bytes v ++ r; pos := z + 4 |}).
Proof.
  intros -> Hv Hz. unfold readUint. cbn [buf pos].
  rewrite be32decode_bytes by (done || lia). cbn [mbind option_bind].
  unfold advance. cbn [buf pos]. by rewrite u32_small by lia.
Qed.

Lemma readString_loop_spec n : ∀ val b,
  0 ≤ pos b →
  pos b + Z.of_nat n < 2 ^ 32 →
  (Z.to_nat (pos b) + n ≤ length (buf b))%nat →
  readString_loop n val b
  = Some (val ++ (char_of_byte <$> take n (drop (Z.to_nat (pos b)) (buf b))),
          {| buf := buf b; pos := pos b + Z.of_nat n |}).
Proof.
  induction n as [|n IH]; intros val [m p] H0 H1 H2; cbn [buf pos] in *.
  - cbn [readString_loop take fmap list_fmap].
    rewrite app_nil_r. do 3 f_equal. lia.
  - cbn [readString_loop]. unfold peek. cbn [buf pos].
    destruct (lookup_lt_is_Some_2 m (Z.to_nat p)) as [c Hc]; [lia|].
    rewrite Hc. cbn [mbind option_bind].
    unfold advance. cbn [buf pos]. rewrite u32_small by lia.
    rewrite IH; cbn [buf pos]; try lia.
    rewrite (drop_S m c (Z.to_nat p)) by done.
    replace (Z.to_nat (p + 1)) with (S (Z.to_nat p)) by lia.
    cbn [take fmap list_fmap]. rewrite <- app_assoc.
    do 3 f_equal. lia.
Qed.

(** Reading into a non-empty output is reading into an empty one, with
    the previous output in front. *)
Lemma readString_loop_acc n : ∀ out b,
  readString_loop n out b
  = (λ '(s, b'), (out ++ s, b')) <$> readString_loop n [] b.
Proof.
  induction n as [|n IH]; intros out b; cbn [readString_loop].
  - cbn. by rewrite app_nil_r.
  - destruct (peek (buf b) (Z.to_nat (pos b))) as [c|]; [|done].
    cbn [mbind option_bind app].
    rewrite (IH (out ++ [char_of_byte c])), (IH [char_of_byte c]).
    destruct (readString_loop n [] (advance 1 b)) as [[s b']|]; [|done].
    cbn. by rewrite <- app_assoc.
Qed.

Lemma readRset_loop_acc n : ∀ (out : gset Z) b,
  readRset_loop n out b
  = (λ '(s, b'), (out ∪ s, b')) <$> readRset_loop n ∅ b.
Proof.
  induction n as [|n IH]; intros out b; cbn [readRset_loop].
  - cbn. by rewrite (right_id_L ∅ (∪)).
  - destruct (readInt b) as [[r b1]|]; [|done].
    cbn [mbind option_bind].
    rewrite (IH ({[r]} ∪ out)), (IH ({[r]} ∪ ∅)).
    destruct (readRset_loop n ∅ b1) as [[s b']|]; [|done].
    cbn. rewrite (right_id_L ∅ (∪) {[r]}), (comm_L (∪) {[r]} out).
    by rewrite (assoc_L (∪)).
Qed.

End ByteBufferReads.

Section ByteBufferEncodings.
Import Endian ByteBuffer.

Lemma length_int_bytes ints : length (int_bytes ints) = (4 * length ints)%nat.
Proof.
  induction ints as [|i ints IH]; [done|].
  unfold int_bytes in *. rewrite bind_cons, length_app, IH.
  cbn [be32bytes length]. lia.
Qed.

Lemma readInt_bytes p r i z :
  z = Z.of_nat (length p) → - 2 ^ 31 ≤ i < 2 ^ 31 → z + 4 < 2 ^ 32 →
  readInt {| buf := p ++ be32bytes (u32 i) ++ r; pos := z |}
  = Some (i, {| buf := p ++ be32bytes (u32 i) ++ r; pos := z + 4 |}).
Proof.
  intros Hz Hi Hlt. unfold readInt.
  rewrite readUint_bytes by (done || apply u32_range).
  cbn [mbind option_bind]. by rewrite i32_u32, i32_small.
Qed.

Lemma readRset_loop_spec ints : ∀ p r (out : gset Z) z,
  z = Z.of_nat (length p) →
  Forall (λ i, - 2 ^ 31 ≤ i < 2 ^ 31) ints →
  z + 4 * Z.of_nat (length ints) < 2 ^ 32 →
  readRset_loop (length ints) out {| buf := p ++ int_bytes ints ++ r; pos := z |}
  = Some (out ∪ list_to_set ints,
          {| buf := p ++ int_bytes ints ++ r;
             pos := z + 4 * Z.of_nat (length ints) |}).
Proof.
  induction ints as [|i ints IH]; intros p r out z Hz Hall Hlt.
  - cbn. rewrite (right_id_L ∅ (∪)). do 3 f_equal. lia.
  - apply Forall_cons in Hall as [Hi Hall].
    cbn [length readRset_loop]. unfold int_bytes. rewrite bind_cons.
    fold (int_bytes ints). rewrite <- (app_assoc (be32bytes (u32 i))).
    rewrite readInt_bytes by (done || cbn [length] in Hlt; lia).
    cbn [mbind option_bind].
    rewrite (app_assoc p (be32bytes (u32 i))).
    rewrite IH; try done.
    + do 2 f_equal.
      * rewrite list_to_set_cons, (comm_L (∪) {[i]} out).
        by rewrite (assoc_L (∪)).
      * f_equal. cbn [length]. lia.
    + rewrite length_app. cbn [be32bytes length]. lia.
    + cbn [length] in Hlt. lia.
Qed.

End ByteBufferEncodings.

(** * ByteBuffer: the theorems *)

Section ByteBufferTheorems.
Import Endian ByteBuffer.

(** C1, as stated, fails: on the buffer [01 02 03 04] rewound to position
    0, [writeUint(0xAABBCCDD)] stores the four bytes over the existing
    content and leaves four zero bytes at the tail, so the old content is
    not a prefix of the new one. *)
Lemma writeUint_after_rewind_overwrites :
  (b ← writeUint 0x01020304 new; Some (setPos 0 b))
    = Some {| buf := [1; 2; 3; 4]; pos := 0 |}
  ∧ writeUint 0xAABBCCDD {| buf := [1; 2; 3; 4]; pos := 0 |}
    = Some {| buf := [0xAA; 0xBB; 0xCC; 0xDD; 0; 0; 0; 0]; pos := 4 |}
  ∧ ¬ appends_at_tail (writeUint 0xAABBCCDD) {| buf := [1; 2; 3; 4]; pos := 0 |}.
Proof.
  split_and!; [done|done|].
  intros (b' & enc & Hw & Hbuf & _).
  assert (b' = {| buf := [0xAA; 0xBB; 0xCC; 0xDD; 0; 0; 0; 0]; pos := 4 |})
    as -> by (vm_compute in Hw; congruence).
  cbn [buf] in Hbuf. discriminate.
Qed.

(** C1, amended: with the position inside the content, every write first
    grows the content by the written size with zero bytes at the tail and
    then stores its encoding in place from the position on, over the
    existing bytes; the position advances by the written size.
    [writeBuffer] stores its four byte count in place and appends the
    nested content at the tail. *)
Theorem write_after_rewind_stores_in_place (b : ByteBuffer) :
  0 ≤ pos b < Z.of_nat (length (buf b)) →
  (∀ v, Z.of_nat (length (buf b)) + 8 < 2 ^ 32 →
     writeU64 v b
     = Some {| buf := overwrite (Z.to_nat (pos b)) (be64bytes v)
                        (buf b ++ replicate 8 0);
               pos := pos b + 8 |})
  ∧ (∀ v, Z.of_nat (length (buf b)) + 4 < 2 ^ 32 →
     writeUint v b
     = Some {| buf := overwrite (Z.to_nat (pos b)) (be32bytes v)
                        (buf b ++ replicate 4 0);
               pos := pos b + 4 |})
  ∧ (∀ v, Z.of_nat (length (buf b)) + 4 < 2 ^ 32 →
     writeInt v b
     = Some {| buf := overwrite (Z.to_nat (pos b)) (be32bytes (u32 v))
                        (buf b ++ replicate 4 0);
               pos := pos b + 4 |})
  ∧ (∀ v : bool, Z.of_nat (length (buf b)) + 1 < 2 ^ 32 →
     writeBool v b
     = Some {| buf := overwrite (Z.to_nat (pos b)) [if v then 1 else 0]
                        (buf b ++ replicate 1 0);
               pos := pos b + 1 |})
  ∧ (∀ s : list ascii,
     Z.of_nat (length (buf b)) + 4 + Z.of_nat (length s) < 2 ^ 32 →
     writeString s b
     = Some {| buf := overwrite (Z.to_nat (pos b))
                        (be32bytes (Z.of_nat (length s)) ++ (byte_of_char <$> s))
                        (buf b ++ replicate (4 + length s) 0);
               pos := pos b + 4 + Z.of_nat (length s) |})
  ∧ (∀ o : ByteBuffer,
     Z.of_nat (length (buf b)) + 4 + Z.of_nat (length (buf o)) < 2 ^ 32 →
     writeBuffer o b
     = Some {| buf := overwrite (Z.to_nat (pos b))
                        (be32bytes (Z.of_nat (length (buf o))))
                        (buf b ++ replicate 4 0) ++ buf o;
               pos := pos b + 4 + Z.of_nat (length (buf o)) |}).
Proof.
  intros Hpos. split_and!.
  - intros v Hlen. rewrite writeU64_spec by lia. by rewrite u32_small by lia.
  - intros v Hlen. rewrite writeUint_spec by lia. by rewrite u32_small by lia.
  - intros v Hlen. unfold writeInt.
    rewrite writeUint_spec by lia. by rewrite (u32_small (pos b + 4)) by lia.
  - intros v Hlen. rewrite writeBool_spec by lia. by rewrite u32_small by lia.
  - intros s Hlen. apply writeString_spec; lia.
  - intros o Hlen. apply writeBuffer_spec; lia.
Qed.

(** An instance: [writeBool(true)] on [01 02 03 04] at position 1. *)
Lemma write_after_rewind_witness :
  0 ≤ pos {| buf := [1; 2; 3; 4]; pos := 1 |}
    < Z.of_nat (length (buf {| buf := [1; 2; 3; 4]; pos := 1 |}))
  ∧ writeBool true {| buf := [1; 2; 3; 4]; pos := 1 |}
    = Some {| buf := [1; 1; 3; 4; 0]; pos := 2 |}.
Proof.
  split; [cbn; lia|].
  refine (proj1 (proj2 (proj2 (proj2
    (write_after_rewind_stores_in_place {| buf := [1; 2; 3; 4]; pos := 1 |} _))))
    true _); cbn; lia.
Defined.

(** C2: on a freshly cleared buffer, writing a representable value of a
    primitive type, rewinding with [setPos(0)] and reading it back with
    the matching read yields the value: 64-bit unsigned, 32-bit unsigned,
    32-bit signed (negative values included), boolean, and a string read
    into an empty output.  A string is representable when its length
    prefix and characters fit the 32-bit position. *)
Theorem write_then_read_roundtrip (b : ByteBuffer) :
  (∀ v, 0 ≤ v < 2 ^ 64 →
     (b1 ← writeU64 v (clear b); readU64 (setPos 0 b1))
     = Some (v, {| buf := be64bytes v; pos := 8 |}))
  ∧ (∀ v, 0 ≤ v < 2 ^ 32 →
     (b1 ← writeUint v (clear b); readUint (setPos 0 b1))
     = Some (v, {| buf := be32bytes v; pos := 4 |}))
  ∧ (∀ v, - 2 ^ 31 ≤ v < 2 ^ 31 →
     (b1 ← writeInt v (clear b); readInt (setPos 0 b1))
     = Some (v, {| buf := be32bytes (u32 v); pos := 4 |}))
  ∧ (∀ v : bool,
     (b1 ← writeBool v (clear b); readBool (setPos 0 b1))
     = Some (v, {| buf := [if v then 1 else 0]; pos := 1 |}))
  ∧ (∀ s : list ascii, 4 + Z.of_nat (length s) < 2 ^ 32 →
     (b1 ← writeString s (clear b); readString [] (setPos 0 b1))
     = Some (s, {| buf := be32bytes (Z.of_nat (length s)) ++ (byte_of_char <$> s);
                   pos := 4 + Z.of_nat (length s) |})).
Proof.
  split_and!.
  - intros v Hv. rewrite writeU64_spec by (cbn; lia).
    cbn [mbind option_bind]. unfold setPos, clear. cbn [buf pos].
    change (overwrite (Z.to_nat 0) (be64bytes v) ([] ++ replicate 8 0))
      with ([] ++ be64bytes v ++ []).
    unfold readU64. cbn [buf pos].
    rewrite be64decode_bytes by done. cbn [mbind option_bind app].
    by rewrite app_nil_r.
  - intros v Hv. rewrite writeUint_spec by (cbn; lia).
    cbn [mbind option_bind]. unfold setPos, clear. cbn [buf pos].
    change (overwrite (Z.to_nat 0) (be32bytes v) ([] ++ replicate 4 0))
      with ([] ++ be32bytes v ++ []).
    rewrite readUint_bytes by (done || lia).
    by rewrite app_nil_r.
  - intros v Hv. unfold writeInt. rewrite writeUint_spec by (cbn; lia).
    cbn [mbind option_bind]. unfold setPos, clear. cbn [buf pos].
    change (overwrite (Z.to_nat 0) (be32bytes (u32 v)) ([] ++ replicate 4 0))
      with ([] ++ be32bytes (u32 v) ++ []).
    rewrite readInt_bytes by (done || lia).
    by rewrite app_nil_r.
  - by intros [].
  - intros s Hs. rewrite writeString_spec by (cbn [clear buf pos length]; lia).
    cbn [mbind option_bind]. unfold setPos, clear. cbn [buf pos app].
    assert (overwrite (Z.to_nat 0)
              (be32bytes (Z.of_nat (length s)) ++ (byte_of_char <$> s))
              (replicate (4 + length s) 0)
            = [] ++ be32bytes (Z.of_nat (length s)) ++ (byte_of_char <$> s))
      as ->.
    { unfold overwrite. change (Z.to_nat 0) with 0%nat. cbn [take Nat.add].
      rewrite drop_ge.
      - by rewrite app_nil_r, take_0.
      - rewrite length_app, length_fmap, length_replicate. done. }
    unfold readString.
    rewrite readUint_bytes by (done || lia). cbn [mbind option_bind].
    rewrite Nat2Z.id.
    rewrite readString_loop_spec; cbn [buf pos app]; try lia.
    + change (Z.to_nat (0 + 4)) with (length (be32bytes (Z.of_nat (length s)))).
      rewrite drop_app_length.
      rewrite firstn_all2 by (by rewrite length_fmap).
      by rewrite chars_of_bytes_of_chars.
    + rewrite length_app, length_fmap. cbn [be32bytes length]. lia.
Qed.

(** Instances: the values of the repository's tests. *)
Lemma write_then_read_roundtrip_witness :
  (b1 ← writeU64 0x123456789ABCDEF0 (clear new); readU64 (setPos 0 b1))
    = Some (0x123456789ABCDEF0,
            {| buf := [0x12; 0x34; 0x56; 0x78; 0x9A; 0xBC; 0xDE; 0xF0];
               pos := 8 |})
  ∧ (b1 ← writeUint 0x12345678 (clear new); readUint (setPos 0 b1))
    = Some (0x12345678, {| buf := [0x12; 0x34; 0x56; 0x78]; pos := 4 |})
  ∧ (b1 ← writeInt (-12345) (clear new); readInt (setPos 0 b1))
    = Some (-12345, {| buf := [0xFF; 0xFF; 0xCF; 0xC7]; pos := 4 |})
  ∧ (b1 ← writeString ["h"; "i"]%char (clear new); readString [] (setPos 0 b1))
    = Some (["h"; "i"]%char, {| buf := [0; 0; 0; 2; 104; 105]; pos := 6 |}).
Proof.
  destruct (write_then_read_roundtrip new) as (H64 & H32 & Hint & _ & Hstr).
  split_and!.
  - apply (H64 0x123456789ABCDEF0). lia.
  - apply (H32 0x12345678). lia.
  - apply (Hint (-12345)). lia.
  - apply (Hstr ["h"; "i"]%char). cbn. lia.
Defined.

(** C3: with the outer position at the end of the outer content,
    [writeBuffer(b)] appends the four byte big-endian length of the whole
    content of [b] and then a copy of that whole content, whatever the
    cursor of [b] is; [readBuffer] at the place of the write loads exactly
    the content of [b] into the output buffer, with position 0, and moves
    the outer position past the count and the copied bytes. *)
Theorem writeBuffer_readBuffer_roundtrip (outer b out : ByteBuffer) :
  pos outer = Z.of_nat (length (buf outer)) →
  Z.of_nat (length (buf outer)) + 4 + Z.of_nat (length (buf b)) < 2 ^ 32 →
  ∃ outer',
    writeBuffer b outer = Some outer'
    ∧ buf outer' = buf outer ++ be32bytes (Z.of_nat (length (buf b))) ++ buf b
    ∧ pos outer' = pos outer + 4 + Z.of_nat (length (buf b))
    ∧ readBuffer out (setPos (pos outer) outer')
      = Some ({| buf := buf b; pos := 0 |},
              {| buf := buf outer';
                 pos := pos outer + 4 + Z.of_nat (length (buf b)) |}).
Proof.
  intros Hpos Hlen.
  assert (overwrite (Z.to_nat (pos outer)) (be32bytes (Z.of_nat (length (buf b))))
            (buf outer ++ replicate 4 0)
          = buf outer ++ be32bytes (Z.of_nat (length (buf b)))) as Hover.
  { rewrite <- (app_nil_r (replicate 4 0)).
    rewrite (overwrite_window (buf outer) (replicate 4 0) []) by (done || lia).
    by rewrite app_nil_r. }
  eexists. split; [apply writeBuffer_spec; lia|]. cbn [buf pos].
  rewrite Hover, <- app_assoc. split_and!; [done|done|].
  unfold readBuffer, setPos. cbn [buf pos].
  rewrite readUint_bytes by lia. cbn [mbind option_bind buf pos].
  unfold load. rewrite decide_True.
  - cbn [mbind option_bind clear buf pos]. unfold advance. cbn [buf pos].
    rewrite u32_small by lia. do 3 f_equal.
    rewrite app_nil_r, app_assoc, drop_app_length'.
    + by rewrite Nat2Z.id, firstn_all.
    + rewrite length_app. cbn [be32bytes length]. lia.
  - rewrite !length_app. cbn [be32bytes length]. lia.
Qed.

(** An instance: a nested buffer [07 08 09] with its cursor at 2, written
    at the end of the outer buffer [01]. *)
Lemma writeBuffer_readBuffer_witness :
  ∃ outer',
    writeBuffer {| buf := [7; 8; 9]; pos := 2 |} {| buf := [1]; pos := 1 |}
      = Some outer'
    ∧ buf outer' = [1; 0; 0; 0; 3; 7; 8; 9]
    ∧ pos outer' = 8
    ∧ readBuffer new (setPos 1 outer')
      = Some ({| buf := [7; 8; 9]; pos := 0 |},
              {| buf := buf outer'; pos := 8 |}).
Proof.
  apply (writeBuffer_readBuffer_roundtrip {| buf := [1]; pos := 1 |}
           {| buf := [7; 8; 9]; pos := 2 |} new); cbn; [done|lia].
Defined.

(** C8: [be64encode] stores the most significant byte first: the eight
    bytes at the pointer become bytes 7, 6, ..., 0 of the value, and
    [0x123456789ABCDEF0] is stored as [12 34 56 78 9A BC DE F0]. *)
Theorem be64encode_most_significant_first :
  (∀ val m off, (off + 8 ≤ length m)%nat →
     be64encode val m off
     = Some (take off m
             ++ [byte_at val 7; byte_at val 6; byte_at val 5; byte_at val 4;
                 byte_at val 3; byte_at val 2; byte_at val 1; byte_at val 0]
             ++ drop (off + 8) m))
  ∧ be64encode 0x123456789ABCDEF0 (replicate 8 0) 0
    = Some [0x12; 0x34; 0x56; 0x78; 0x9A; 0xBC; 0xDE; 0xF0].
Proof.
  split; [|done]. intros val m off H. by rewrite be64encode_spec.
Qed.

(** An instance: a store at offset 1 of a ten byte buffer. *)
Lemma be64encode_most_significant_first_witness :
  be64encode 0x0102030405060708 [9; 9; 9; 9; 9; 9; 9; 9; 9; 9] 1
  = Some [9; 1; 2; 3; 4; 5; 6; 7; 8; 9].
Proof.
  apply (proj1 be64encode_most_significant_first 0x0102030405060708
           [9; 9; 9; 9; 9; 9; 9; 9; 9; 9] 1%nat).
  cbn. lia.
Defined.

(** The codec round trip of the endian tests: decoding what was encoded
    at the same pointer gives the value back, for 64 and for 32 bits. *)
Theorem encode_then_decode_roundtrip (m : list Z) (off : nat) :
  (∀ v, 0 ≤ v < 2 ^ 64 → (off + 8 ≤ length m)%nat →
     (m' ← be64encode v m off; be64decode m' off) = Some v)
  ∧ (∀ v, 0 ≤ v < 2 ^ 32 → (off + 4 ≤ length m)%nat →
     (m' ← be32encode v m off; be32decode m' off) = Some v).
Proof.
  split; intros v Hv Hlen.
  - rewrite be64encode_spec by done. cbn [mbind option_bind].
    apply be64decode_bytes; [|done]. rewrite length_take. lia.
  - rewrite be32encode_spec by done. cbn [mbind option_bind].
    apply be32decode_bytes; [|done]. rewrite length_take. lia.
Qed.

(** An instance: the values of the repository's tests. *)
Lemma encode_then_decode_witness :
  (m' ← be64encode 0x123456789ABCDEF0 (replicate 8 0) 0; be64decode m' 0)
    = Some 0x123456789ABCDEF0
  ∧ (m' ← be32encode 0x12345678 (replicate 4 0) 0; be32decode m' 0)
    = Some 0x12345678.
Proof.
  destruct (encode_then_decode_roundtrip (replicate 8 0) 0) as [H64 _].
  destruct (encode_then_decode_roundtrip (replicate 4 0) 0) as [_ H32].
  split.
  - apply H64; [lia|cbn; lia].
  - apply H32; [lia|cbn; lia].
Defined.

(** C9: [readString] and [readRset] add to their output parameter.  At a
    well-formed encoding (the count and then that many characters, or
    that many 32-bit integers) the string read is the previous output
    followed by the decoded characters, and the set read is the union of
    the previous output and the decoded integers; in general a read into
    any output is the read into an empty one put after, or united with,
    the previous output. *)
Theorem reads_accumulate_into_output :
  (∀ p payload r (out : list ascii),
     Z.of_nat (length p) + 4 + Z.of_nat (length payload) < 2 ^ 32 →
     readString out
       {| buf := p ++ be32bytes (Z.of_nat (length payload)) ++ payload ++ r;
          pos := Z.of_nat (length p) |}
     = Some (out ++ (char_of_byte <$> payload),
             {| buf := p ++ be32bytes (Z.of_nat (length payload)) ++ payload ++ r;
                pos := Z.of_nat (length p) + 4 + Z.of_nat (length payload) |}))
  ∧ (∀ p ints r (out : gset Z),
     Forall (λ i, - 2 ^ 31 ≤ i < 2 ^ 31) ints →
     Z.of_nat (length p) + 4 + 4 * Z.of_nat (length ints) < 2 ^ 32 →
     readRset out
       {| buf := p ++ be32bytes (Z.of_nat (length ints)) ++ int_bytes ints ++ r;
          pos := Z.of_nat (length p) |}
     = Some (out ∪ list_to_set ints,
             {| buf := p ++ be32bytes (Z.of_nat (length ints)) ++ int_bytes ints ++ r;
                pos := Z.of_nat (length p) + 4 + 4 * Z.of_nat (length ints) |}))
  ∧ (∀ b (out : list ascii),
     readString out b = (λ '(s, b'), (out ++ s, b')) <$> readString [] b)
  ∧ (∀ b (out : gset Z),
     readRset out b = (λ '(s, b'), (out ∪ s, b')) <$> readRset ∅ b).
Proof.
  split_and!.
  - intros p payload r out Hlen. unfold readString.
    rewrite readUint_bytes by lia. cbn [mbind option_bind].
    rewrite Nat2Z.id.
    rewrite readString_loop_spec; cbn [buf pos]; try lia.
    + do 3 f_equal.
      replace (Z.to_nat (Z.of_nat (length p) + 4))
        with (length (p ++ be32bytes (Z.of_nat (length payload))))
        by (rewrite length_app; cbn [be32bytes length]; lia).
      rewrite (app_assoc p), drop_app_length.
      by rewrite take_app_length.
    + rewrite !length_app. cbn [be32bytes length]. lia.
  - intros p ints r out Hall Hlen. unfold readRset.
    rewrite readUint_bytes by lia. cbn [mbind option_bind].
    rewrite Nat2Z.id, (app_assoc p).
    rewrite readRset_loop_spec; try done;
      rewrite ?length_app; cbn [be32bytes length]; lia.
  - intros b out. unfold readString.
    destruct (readUint b) as [[sz b1]|]; [|done]. cbn [mbind option_bind].
    apply readString_loop_acc.
  - intros b out. unfold readRset.
    destruct (readUint b) as [[sz b1]|]; [|done]. cbn [mbind option_bind].
    apply readRset_loop_acc.
Qed.

(** Instances: the string [hi] read after [oh], and the integers -5 and 7
    read into the set holding 1. *)
Lemma reads_accumulate_witness :
  readString ["o"; "h"]%char {| buf := [0; 0; 0; 2; 104; 105]; pos := 0 |}
    = Some (["o"; "h"; "h"; "i"]%char,
            {| buf := [0; 0; 0; 2; 104; 105]; pos := 6 |})
  ∧ readRset {[ 1 ]}
      {| buf := [0; 0; 0; 2; 255; 255; 255; 251; 0; 0; 0; 7]; pos := 0 |}
    = Some ({[ 1 ]} ∪ list_to_set [-5; 7],
            {| buf := [0; 0; 0; 2; 255; 255; 255; 251; 0; 0; 0; 7];
               pos := 12 |}).
Proof.
  destruct reads_accumulate_into_output as (Hs & Hr & _).
  split.
  - apply (Hs [] [104; 105] [] ["o"; "h"]%char). cbn. lia.
  - apply (Hr [] [-5; 7] [] {[ 1 ]}).
    + repeat constructor; lia.
    + cbn. lia.
Defined.

End ByteBufferTheorems.

(** * Bitmap *)

Section BitmapTheorems.
Import Bitmap.

Lemma new_spec maxBits b :
  new maxBits = Some b →
  0 ≤ maxBits < 64 ∧ flags b = 0 ∧ mask b = Z.ones maxBits.
Proof.
  unfold new. destruct (decide (0 ≤ maxBits < 64)) as [H|]; [|done].
  intros Hb. injection Hb as <-. cbn [flags mask]. split_and!; try lia.
  assert (0 < 2 ^ maxBits < 2 ^ 64) as Hp.
  { split; [apply Z.pow_pos_nonneg; lia|apply Z.pow_lt_mono_r; lia]. }
  rewrite (u64_small (2 ^ maxBits)) by lia.
  rewrite u64_small by lia. rewrite Z.ones_equiv. lia.
Qed.

Lemma bit_of_spec bit :
  0 ≤ bit < 64 → bit_of bit = Some (2 ^ bit).
Proof.
  intros H. unfold bit_of. rewrite decide_True by done. f_equal.
  rewrite Z.shiftl_1_l. apply u64_small.
  split; [apply Z.pow_nonneg; lia|apply Z.pow_lt_mono_r; lia].
Qed.

(** A bit below [maxBits] is not in the complement of the mask. *)
Lemma bit_within_ones maxBits bit :
  0 ≤ bit < maxBits →
  Z.land (2 ^ bit) (u64 (Z.lnot (Z.ones maxBits))) = 0.
Proof.
  intros H. apply Z.bits_inj'. intros n Hn.
  unfold u64. rewrite <- Z.land_ones by lia.
  rewrite !Z.land_spec, Z.lnot_spec, Z.pow2_bits_eqb, !Z.testbit_ones by lia.
  rewrite Z.bits_0.
  destruct (Z.eqb_spec bit n) as [->|]; [|done].
  decide_cmp. done.
Qed.

Lemma mutate_within_mask maxBits m b :
  mask b = Z.ones maxBits → in_range maxBits m → maxBits < 64 →
  within_mask b →
  ∃ b', mutate m b = Some b' ∧ mask b' = mask b ∧ within_mask b'.
Proof.
  unfold within_mask. intros Hmask Hm Hmax Hb.
  destruct m as [bit|bit|]; cbn [mutate in_range] in *.
  - unfold set. rewrite bit_of_spec by lia. cbn [mbind option_bind].
    eexists. split_and!; [done|done|]. cbn [flags mask].
    rewrite Z.land_lor_distr_l, Hb, Hmask, bit_within_ones by done.
    done.
  - unfold unset. rewrite bit_of_spec by lia. cbn [mbind option_bind].
    eexists. split_and!; [done|done|]. cbn [flags mask].
    rewrite <- Z.land_assoc, (Z.land_comm (Z.lxor _ _)), Z.land_assoc, Hb.
    done.
  - eexists. split_and!; [done|done|]. cbn [clear flags mask]. done.
Qed.

(** C7, the failing input: a bitmap of 8 bits accepts [set(9)], and bit 9
    of [flags] lies outside the mask [0xff]. *)
Lemma set_above_maxBits_leaves_mask :
  (b ← new 8; trace [DoSet 9] b) = Some [{| flags := 512; mask := 255 |}]
  ∧ ¬ within_mask {| flags := 512; mask := 255 |}.
Proof. split; [done|]. unfold within_mask. cbn. discriminate. Qed.

(** The runs on which the invariant does hold: for a bitmap constructed
    with [maxBits] and every sequence of [set(bit)] with [bit < maxBits],
    [unset(bit)] with [bit < 64] and [clear()], every call is defined and
    [flags & ~mask == 0] holds after each of them. *)
Theorem mask_invariant_after_each_mutation maxBits b ms :
  new maxBits = Some b →
  Forall (in_range maxBits) ms →
  ∃ bs, trace ms b = Some bs ∧ Forall within_mask bs.
Proof.
  intros Hnew Hms. apply new_spec in Hnew as (Hmax & Hflags & Hmask).
  assert (within_mask b) as Hb by (unfold within_mask; by rewrite Hflags).
  clear Hflags. revert b Hmask Hb.
  induction Hms as [|m ms Hm Hms IH]; intros b Hmask Hb.
  - by exists [].
  - destruct (mutate_within_mask maxBits m b) as (b' & Hb' & Hmask' & Hin);
      [done|done|lia|done|].
    destruct (IH b') as (bs & Hbs & Hall); [congruence|done|].
    exists (b' :: bs). cbn [trace]. rewrite Hb'. cbn [mbind option_bind].
    rewrite Hbs. cbn [mbind option_bind]. split; [done|by constructor].
Qed.

(** An instance: six calls on a bitmap of 8 bits. *)
Lemma mask_invariant_witness :
  ∃ bs,
    trace [DoSet 0; DoSet 3; DoSet 7; DoUnset 3; DoUnset 9; DoClear]
      {| flags := 0; mask := 255 |} = Some bs
    ∧ Forall within_mask bs.
Proof.
  apply (mask_invariant_after_each_mutation 8); [done|].
  repeat constructor; cbn; lia.
Defined.

(** C10: a bitmap constructed with [maxBits = 0] has [mask == 0] and is
    both empty and full right after construction; in general [isEmpty()]
    and [isFull()] are both true exactly when [mask == 0] and
    [flags == 0]. *)
Theorem empty_and_full_iff_zero_mask :
  (∃ b, new 0 = Some b
        ∧ mask b = 0 ∧ isEmpty b = true ∧ isFull b = true)
  ∧ (∀ b, isEmpty b && isFull b = true ↔ mask b = 0 ∧ flags b = 0).
Proof.
  split.
  - by eexists.
  - intros b. unfold isEmpty, isFull.
    rewrite andb_true_iff, !Z.eqb_eq. lia.
Qed.

End BitmapTheorems.

(** * RandomGenerator *)

Section RandomGeneratorTheorems.
Import RandomGenerator.
Context {K V : Type}.
Implicit Types (g : RandomGenerator K V) (pool : list (K * V)).

(** On a non-empty working list [get] removes the element it returns. *)
Lemma get_nonempty r g :
  elems g ≠ [] →
  ∃ k, elems g !! (r mod length (elems g))%nat = Some k
       ∧ get r g = Some (k, {| elems := delete (r mod length (elems g))%nat (elems g);
                              from := from g |}).
Proof.
  intros Hne. unfold get. rewrite bool_decide_false by done.
  assert (length (elems g) ≠ 0)%nat as Hlen
    by (by intros ?%length_zero_iff_nil).
  rewrite decide_False by done.
  destruct (lookup_lt_is_Some_2 (elems g) (r mod length (elems g))%nat) as [k Hk].
  { by apply Nat.mod_upper_bound. }
  exists k. by rewrite Hk.
Qed.

(** On an empty working list [get] first copies the keys of the pool. *)
Lemma get_refill r g :
  elems g = [] →
  get r g = get r {| elems := (from g).*1; from := from g |}.
Proof.
  intros He. unfold get. rewrite He, bool_decide_true by done.
  cbn [elems from app].
  destruct (decide ((from g).*1 = [])) as [Hk|Hk].
  - by rewrite Hk.
  - by rewrite (bool_decide_false _ Hk).
Qed.

(** As long as the working list holds enough keys, the keys returned and
    the keys left are together the keys the run started with. *)
Lemma gets_spec rs : ∀ g,
  (length rs ≤ length (elems g))%nat →
  ∃ ks g', gets rs g = Some (ks, g')
           ∧ ks ++ elems g' ≡ₚ elems g
           ∧ length ks = length rs
           ∧ from g' = from g.
Proof.
  induction rs as [|r rs IH]; intros g Hlen.
  - by exists [], g.
  - cbn [length] in Hlen.
    destruct (get_nonempty r g) as (k & Hk & Hget).
    { intros He. rewrite He in Hlen. cbn in Hlen. lia. }
    destruct (IH {| elems := delete (r mod length (elems g))%nat (elems g);
                    from := from g |})
      as (ks & g' & Hgets & Hperm & Hks & Hfrom).
    { cbn [elems]. rewrite length_delete by eauto. lia. }
    exists (k :: ks), g'. cbn [gets]. rewrite Hget. cbn [mbind option_bind].
    rewrite Hgets. cbn [mbind option_bind].
    split_and!; [done| |cbn [length]; by rewrite Hks|done].
    cbn [app elems] in *. rewrite Hperm. symmetry. by apply delete_Permutation.
Qed.

(** A full pass from an empty working list returns a permutation of the
    keys and leaves the working list empty again. *)
Lemma full_pass rs g :
  elems g = [] → from g ≠ [] → length rs = length (from g) →
  ∃ ks g', gets rs g = Some (ks, g')
           ∧ ks ≡ₚ (from g).*1 ∧ elems g' = [] ∧ from g' = from g.
Proof.
  intros He Hne Hlen.
  destruct rs as [|r rs].
  { apply eq_sym, length_zero_iff_nil in Hlen. done. }
  destruct (gets_spec (r :: rs) {| elems := (from g).*1; from := from g |})
    as (ks & g' & Hgets & Hperm & Hks & Hfrom).
  { cbn [elems]. rewrite length_fmap. lia. }
  cbn [gets elems from] in *. rewrite <- (get_refill r g He) in Hgets.
  exists ks, g'.
  apply Permutation_length in Hperm as Hl.
  rewrite length_app, length_fmap, Hks, Hlen in Hl.
  assert (elems g' = []) as Hnil by (apply length_zero_iff_nil; lia).
  rewrite Hnil, app_nil_r in Hperm. done.
Qed.

(** C5: for a non-empty pool of [n] distinct keys and any [n] values of
    the random source, the first [n] calls of [get()] after construction,
    and after [reset()] in any state of the generator, are all defined and
    return a permutation of the keys of the pool: every key exactly
    once. *)
Theorem full_pass_returns_every_key_once pool rs g :
  pool ≠ [] → NoDup pool.*1 → length rs = length pool → from g = pool →
  (∃ ks g', gets rs (new pool) = Some (ks, g')
            ∧ ks ≡ₚ pool.*1 ∧ NoDup ks)
  ∧ (∃ ks g', gets rs (reset g) = Some (ks, g')
              ∧ ks ≡ₚ pool.*1 ∧ NoDup ks).
Proof.
  intros Hne Hnd Hlen Hfrom.
  assert (reset g = new pool) as -> by (unfold reset, new; by rewrite Hfrom).
  assert (∃ ks g', gets rs (new pool) = Some (ks, g')
                   ∧ ks ≡ₚ pool.*1 ∧ NoDup ks) as H; [|done].
  destruct (full_pass rs (new pool)) as (ks & g' & Hgets & Hperm & _);
    [done|done|done|].
  exists ks, g'. split_and!; [done|done|]. by rewrite Hperm.
Qed.

End RandomGeneratorTheorems.

(** An instance: three draws from a pool of three keys after [reset()]. *)
Lemma full_pass_witness :
  ∃ ks g',
    RandomGenerator.gets [5; 7; 11]%nat
      (RandomGenerator.reset
         (RandomGenerator.new [(1, true); (2, true); (3, false)]%nat))
      = Some (ks, g')
    ∧ ks ≡ₚ [1; 2; 3]%nat ∧ NoDup ks.
Proof.
  refine (proj2 (full_pass_returns_every_key_once
            [(1, true); (2, true); (3, false)]%nat [5; 7; 11]%nat
            (RandomGenerator.new [(1, true); (2, true); (3, false)]%nat)
            _ _ _ _));
    [done| |done|done].
  apply (bool_decide_unpack _). by vm_compute.
Defined.

Section RandomGeneratorExhaustion.
Import RandomGenerator.
Context {K V : Type}.
Implicit Types (g : RandomGenerator K V) (pool : list (K * V)).

Lemma gets_app rs1 : ∀ rs2 g,
  gets (rs1 ++ rs2) g
  = '(ks1, g1) ← gets rs1 g;
    '(ks2, g2) ← gets rs2 g1;
    Some (ks1 ++ ks2, g2).
Proof.
  induction rs1 as [|r rs1 IH]; intros rs2 g; cbn [app gets].
  - cbn [mbind option_bind]. by destruct (gets rs2 g) as [[ks2 g2]|].
  - destruct (get r g) as [[k g1]|]; [|done]. cbn [mbind option_bind].
    rewrite IH. destruct (gets rs1 g1) as [[ks1 g2]|]; [|done].
    cbn [mbind option_bind].
    by destruct (gets rs2 g2) as [[ks2 g3]|].
Qed.

(** After a full pass the next call of [get()] is defined without any
    [reset()]: the working list is filled again from the pool, and the
    key returned is one the pass has returned already. *)
Lemma sampling_resumes_after_exhaustion pool rs r :
  pool ≠ [] → length rs = length pool →
  ∃ ks k g', gets (rs ++ [r]) (new pool) = Some (ks ++ [k], g')
             ∧ ks ≡ₚ pool.*1 ∧ k ∈ ks.
Proof.
  intros Hne Hlen.
  destruct (full_pass rs (new pool)) as (ks & g1 & Hgets & Hperm & He & Hfrom);
    [done|done|done|].
  cbn [from new] in *.
  destruct (get_nonempty r {| elems := pool.*1; from := pool |})
    as (k & Hk & Hget).
  { cbn [elems]. by intros ?%fmap_nil_inv. }
  exists ks, k. eexists. rewrite gets_app, Hgets. cbn [mbind option_bind gets].
  rewrite (get_refill r g1 He), Hfrom, Hget. cbn [mbind option_bind].
  split_and!; [done|done|].
  rewrite Hperm. cbn [elems] in Hk. by eapply list_elem_of_lookup_2.
Qed.

End RandomGeneratorExhaustion.

(** An instance: a third draw from a pool of two keys. *)
Lemma sampling_resumes_witness :
  ∃ ks k g',
    RandomGenerator.gets ([4; 9] ++ [5])%nat
      (RandomGenerator.new [(1, true); (2, false)]%nat)
      = Some (ks ++ [k], g')
    ∧ ks ≡ₚ [1; 2]%nat ∧ k ∈ ks.
Proof.
  apply (sampling_resumes_after_exhaustion
           [(1, true); (2, false)]%nat [4; 9]%nat 5%nat); done.
Defined.

(** C6 fails on the code: over the pool with the single key 7, the second
    call of [get()] is defined although no [reset()] was made, and it
    returns key 7 a second time. *)
Lemma second_draw_repeats_key_without_reset (r1 r2 : nat) :
  RandomGenerator.gets [r1; r2] (RandomGenerator.new [(7, true)])
  = Some ([7; 7], {| RandomGenerator.elems := [];
                     RandomGenerator.from := [(7, true)] |}).
Proof. by vm_compute. Qed.

(** * CombinationGenerator *)

Section NextPermutation.
Import CombinationGenerator.

Lemma at_app_l (p q : list bool) i :
  (i < length p)%nat → at_ (p ++ q) i = at_ p i.
Proof. intros H. unfold at_. by rewrite lookup_app_l. Qed.

Lemma at_app_r (p q : list bool) i :
  at_ (p ++ q) (length p + i) = at_ q i.
Proof.
  unfold at_. rewrite lookup_app_r by lia.
  by replace (length p + i - length p)%nat with i by lia.
Qed.

Lemma at_descending a b i : at_ (descending a b) i = bool_decide (i < a)%nat.
Proof.
  unfold descending, at_.
  destruct (decide (i < a)%nat) as [H|H].
  - rewrite lookup_app_l by (rewrite length_replicate; lia).
    rewrite lookup_replicate_2 by done. by rewrite bool_decide_true.
  - rewrite bool_decide_false by done.
    rewrite lookup_app_r by (rewrite length_replicate; lia).
    destruct (replicate b false !! _) as [x|] eqn:E; [|done].
    by apply lookup_replicate_1 in E as [-> _].
Qed.

Lemma length_descending a b : length (descending a b) = (a + b)%nat.
Proof. unfold descending. by rewrite length_app, !length_replicate. Qed.

Lemma reverse_descending a b :
  reverse (descending a b) = replicate b false ++ replicate a true.
Proof. unfold descending. by rewrite reverse_app, !reverse_replicate. Qed.

Lemma find_pivot_descending a b i1 : find_pivot (descending a b) i1 = None.
Proof.
  induction i1 as [|i IH]; [done|]. cbn [find_pivot].
  rewrite !at_descending. unfold lt_bool.
  repeat case_bool_decide; cbn; try done; lia.
Qed.

Lemma next_permutation_descending a b :
  next_permutation (descending a b)
  = (replicate b false ++ replicate a true, false).
Proof.
  unfold next_permutation.
  destruct (length (descending a b)) as [|[|n]] eqn:Hlen.
  - rewrite length_descending in Hlen.
    assert (a = 0 ∧ b = 0)%nat as [-> ->] by lia. done.
  - rewrite length_descending in Hlen.
    assert (a = 1 ∧ b = 0 ∨ a = 0 ∧ b = 1)%nat as [[-> ->]|[-> ->]] by lia; done.
  - by rewrite find_pivot_descending, reverse_descending.
Qed.

Lemma at_with_pivot_rest p a b j :
  at_ (with_pivot p a b) (length p + S j) = bool_decide (j < S a)%nat.
Proof.
  unfold with_pivot. rewrite at_app_r. unfold at_. cbn [lookup list_lookup].
  apply at_descending.
Qed.

Lemma at_with_pivot_pivot p a b : at_ (with_pivot p a b) (length p) = false.
Proof.
  unfold with_pivot. rewrite <- (Nat.add_0_r (length p)). by rewrite at_app_r.
Qed.

Lemma find_pivot_with_pivot p a b j :
  find_pivot (with_pivot p a b) (length p + S j) = Some (length p).
Proof.
  induction j as [|j IH].
  - rewrite Nat.add_1_r. cbn [find_pivot].
    rewrite at_with_pivot_pivot.
    replace (S (length p)) with (length p + 1)%nat by lia.
    by rewrite at_with_pivot_rest.
  - replace (length p + S (S j))%nat with (S (length p + S j)) by lia.
    cbn [find_pivot].
    replace (S (length p + S j)) with (length p + S (S j))%nat by lia.
    rewrite !at_with_pivot_rest. unfold lt_bool.
    repeat case_bool_decide; cbn; try done; lia.
Qed.

Lemma find_swap_with_pivot p a b j :
  find_swap (with_pivot p a b) false (length p + S (S a) + j)
  = (length p + S a)%nat.
Proof.
  induction j as [|j IH].
  - replace (length p + S (S a) + 0)%nat with (S (length p + S a)) by lia.
    cbn [find_swap]. rewrite at_with_pivot_rest.
    by rewrite bool_decide_true by lia.
  - replace (length p + S (S a) + S j)%nat
      with (S (length p + S (S a + j))) by lia.
    cbn [find_swap]. rewrite at_with_pivot_rest.
    rewrite bool_decide_false by lia. cbn [lt_bool negb andb].
    rewrite <- IH. f_equal. lia.
Qed.

Lemma next_permutation_with_pivot p a b :
  next_permutation (with_pivot p a b)
  = (p ++ true :: replicate (S b) false ++ replicate a true, true).
Proof.
  assert (length (with_pivot p a b) = S (S (length p + a + b))) as Hlen.
  { unfold with_pivot. rewrite length_app. cbn [length].
    rewrite length_descending. lia. }
  assert (find_pivot (with_pivot p a b) (S (length p + a + b))
          = Some (length p)) as Hfp.
  { replace (S (length p + a + b)) with (length p + S (a + b))%nat by lia.
    apply find_pivot_with_pivot. }
  assert (find_swap (with_pivot p a b) false (S (S (length p + a + b)))
          = (length p + S a)%nat) as Hfs.
  { replace (S (S (length p + a + b))) with (length p + S (S a) + b)%nat by lia.
    apply find_swap_with_pivot. }
  unfold next_permutation. rewrite Hlen, Hfp, at_with_pivot_pivot, Hfs.
  cbn zeta. f_equal.
  unfold iter_swap. rewrite at_with_pivot_pivot, at_with_pivot_rest.
  rewrite bool_decide_true by lia.
  unfold with_pivot, descending, reverse_from.
  replace (replicate (S a) true) with (replicate a true ++ [true])
    by (by rewrite <- replicate_S_end).
  rewrite (insert_app_r p). cbn [insert list_insert].
  rewrite <- (app_assoc (replicate a true)).
  rewrite (insert_app_r_alt (replicate a true)) by (by rewrite length_replicate).
  rewrite length_replicate, Nat.sub_diag. cbn [app insert list_insert].
  rewrite (insert_app_r_alt p) by done.
  rewrite Nat.sub_diag. cbn [insert list_insert].
  replace (p ++ true :: replicate a true ++ false :: replicate b false)
    with ((p ++ [true]) ++ replicate a true ++ false :: replicate b false)
    by (by rewrite <- app_assoc).
  replace (S (length p)) with (length (p ++ [true]))
    by (rewrite length_app; cbn; lia).
  rewrite take_app_length, drop_app_length.
  rewrite reverse_app, reverse_cons, !reverse_replicate.
  rewrite <- replicate_S_end. by rewrite <- !app_assoc.
Qed.

(** Every vector of booleans has one of the two shapes. *)
Lemma descending_or_with_pivot (m : list bool) :
  (∃ a b, m = descending a b) ∨ (∃ p a b, m = with_pivot p a b).
Proof.
  induction m as [|x m [(a & b & ->)|(p & a & b & ->)]].
  - left. by exists 0%nat, 0%nat.
  - destruct x.
    + left. by exists (S a), b.
    + destruct a as [|a].
      * left. by exists 0%nat, (S b).
      * right. by exists [], a, b.
  - right. by exists (x :: p), a, b.
Qed.

Lemma next_permutation_cons x m m' :
  next_permutation m = (m', true) →
  next_permutation (x :: m) = (x :: m', true).
Proof.
  destruct (descending_or_with_pivot m) as [(a & b & ->)|(p & a & b & ->)].
  - by rewrite next_permutation_descending.
  - rewrite next_permutation_with_pivot. intros [= <-].
    apply (next_permutation_with_pivot (x :: p)).
Qed.

Lemma length_next_permutation m :
  length (next_permutation m).1 = length m.
Proof.
  destruct (descending_or_with_pivot m) as [(a & b & ->)|(p & a & b & ->)].
  - rewrite next_permutation_descending. cbn [fst].
    rewrite length_descending, length_app, !length_replicate. lia.
  - rewrite next_permutation_with_pivot. unfold with_pivot. cbn [fst].
    rewrite !length_app. cbn [length].
    rewrite length_descending, length_app, !length_replicate. cbn [length]. lia.
Qed.

End NextPermutation.

Section Masks.

Lemma masks_gt n : ∀ k, (n < k)%nat → masks n k = [].
Proof.
  induction n as [|n IH]; intros [|k] H; try lia; [done|].
  cbn [masks]. rewrite !IH by lia. done.
Qed.

Lemma length_masks n : ∀ k, length (masks n k) = binom n k.
Proof.
  induction n as [|n IH]; intros [|k]; cbn [masks binom]; try done.
  - rewrite app_nil_r, length_fmap, IH. by destruct n.
  - rewrite length_app, !length_fmap, !IH. lia.
Qed.

Lemma masks_shape n : ∀ k m,
  m ∈ masks n k → length m = n ∧ length (filter (λ b, b = true) m) = k.
Proof.
  induction n as [|n IH]; intros k m Hm; cbn [masks] in Hm.
  - destruct k; [|by apply elem_of_nil in Hm].
    by apply list_elem_of_singleton in Hm as ->.
  - apply elem_of_app in Hm as [Hm|Hm].
    + apply list_elem_of_fmap in Hm as (m' & -> & Hm').
      destruct (IH _ _ Hm') as [H1 H2]. cbn [length].
      rewrite filter_cons_False by done. by rewrite H1, H2.
    + destruct k as [|k]; [by apply elem_of_nil in Hm|].
      apply list_elem_of_fmap in Hm as (m' & -> & Hm').
      destruct (IH _ _ Hm') as [H1 H2]. cbn [length].
      rewrite filter_cons_True by done. cbn [length]. by rewrite H1, H2.
Qed.

Lemma NoDup_masks n : ∀ k, NoDup (masks n k).
Proof.
  induction n as [|n IH]; intros k; cbn [masks].
  - destruct k; [apply NoDup_singleton|apply NoDup_nil_2].
  - apply NoDup_app. split_and!.
    + apply NoDup_fmap_2; [|done]. by intros ?? [= ->].
    + intros m (m1 & -> & _)%list_elem_of_fmap Hm. destruct k; [by apply elem_of_nil in Hm|].
      by apply list_elem_of_fmap in Hm as (m2 & [=] & _).
    + destruct k; [apply NoDup_nil_2|].
      apply NoDup_fmap_2; [|done]. by intros ?? [= ->].
Qed.

End Masks.

Section Pick.
Context {A : Type}.
Implicit Types (es : list A) (bm : list bool).

Lemma select_pick bm : ∀ es,
  (length bm ≤ length es)%nat →
  CombinationGenerator.select bm es = Some (pick bm es).
Proof.
  induction bm as [|b bm IH]; intros es H; [done|].
  destruct es as [|e es]; cbn [length] in H; [lia|].
  cbn [CombinationGenerator.select pick tail].
  destruct b; rewrite IH by lia; done.
Qed.

Lemma pick_sublist bm : ∀ es, pick bm es `sublist_of` es.
Proof.
  induction bm as [|b bm IH]; intros [|e es]; cbn [pick];
    try apply sublist_nil_l.
  destruct b; [by apply sublist_skip|by apply sublist_cons].
Qed.

Lemma length_pick bm : ∀ es,
  length bm = length es →
  length (pick bm es) = length (filter (λ b, b = true) bm).
Proof.
  induction bm as [|b bm IH]; intros [|e es] H; try done.
  injection H as H. cbn [pick]. destruct b.
  - rewrite filter_cons_True by done. cbn [length]. by rewrite IH.
  - rewrite filter_cons_False by done. by rewrite IH.
Qed.

Lemma pick_inj es : ∀ bm1 bm2,
  NoDup es → length bm1 = length es → length bm2 = length es →
  pick bm1 es = pick bm2 es → bm1 = bm2.
Proof.
  induction es as [|e es IH]; intros [|b1 bm1] [|b2 bm2] Hnd H1 H2 Hp;
    try done.
  apply NoDup_cons in Hnd as [Hne Hnd].
  injection H1 as H1. injection H2 as H2. cbn [pick] in Hp.
  assert (∀ bm, e ∉ pick bm es) as Hnot.
  { intros bm He. apply Hne. eapply elem_of_sublist; [done|]. apply pick_sublist. }
  destruct b1, b2.
  - injection Hp as Hp. f_equal. by apply IH.
  - exfalso. apply (Hnot bm2). rewrite <- Hp. by left.
  - exfalso. apply (Hnot bm1). rewrite Hp. by left.
  - f_equal. by apply IH.
Qed.

End Pick.

Section Enumeration.
Import CombinationGenerator.

Lemma chain_cons x m l e :
  chain m l e → chain (x :: m) (cons x <$> l) (x :: e).
Proof.
  induction 1 as [m|m m' l e Hnext _ IH]; [constructor|].
  rewrite fmap_cons. eapply chain_step; [|done].
  by apply next_permutation_cons.
Qed.

Lemma chain_app m l1 e1 m2 l2 e2 :
  chain m l1 e1 → next_permutation e1 = (m2, true) → chain m2 l2 e2 →
  chain m (l1 ++ l2) e2.
Proof.
  induction 1 as [m|m m' l e Hnext _ IH]; intros Hstep Hrest; cbn [app].
  - by eapply chain_step.
  - eapply chain_step; [done|]. by apply IH.
Qed.

Lemma chain_masks n : ∀ k,
  (k ≤ n)%nat → chain (lowest n k) (masks n k) (descending k (n - k)).
Proof.
  induction n as [|n IH]; intros k Hk.
  - assert (k = 0)%nat as -> by lia. constructor.
  - destruct k as [|k].
    + cbn [masks]. rewrite app_nil_r.
      pose proof (chain_cons false _ _ _ (IH 0%nat ltac:(lia))) as H.
      unfold lowest, descending in *. by rewrite Nat.sub_0_r in *.
    + destruct (decide (k = n)) as [->|Hne].
      * cbn [masks]. rewrite masks_gt by lia. cbn [fmap list_fmap app].
        pose proof (chain_cons true _ _ _ (IH n ltac:(lia))) as H.
        unfold lowest, descending in *. by rewrite Nat.sub_diag in *.
      * cbn [masks].
        pose proof (chain_cons false _ _ _ (IH (S k) ltac:(lia))) as H1.
        pose proof (chain_cons true _ _ _ (IH k ltac:(lia))) as H2.
        assert (lowest (S n) (S k) = false :: lowest n (S k)) as ->.
        { unfold lowest.
          by replace (S n - S k)%nat with (S (n - S k)) by lia. }
        assert (descending (S k) (S n - S k) = true :: descending k (n - k))
          as -> by done.
        eapply chain_app; [exact H1| |exact H2].
        change (false :: descending (S k) (n - S k))
          with (with_pivot [] k (n - S k)).
        rewrite next_permutation_with_pivot. cbn [app].
        unfold lowest. by replace (n - k)%nat with (S (n - S k)) by lia.
Qed.

Lemma masks_0 n : masks n 0 = [replicate n false].
Proof.
  induction n as [|n IH]; [done|]. cbn [masks]. by rewrite IH.
Qed.

End Enumeration.

Section Driver.
Import CombinationGenerator.
Context {A : Type}.
Implicit Types (g : CombinationGenerator A) (pool : list A).

(** Once the selection vector is filled, the loop runs along the chain of
    permutations and stops after its last vector. *)
Lemma drive_chain m l e :
  chain m l e → ∀ m0 g fuel,
  next_permutation e = (m0, false) →
  bmap g = m → m ≠ [] → length (elems g) = length m → greater g = true →
  (length l ≤ fuel)%nat →
  drive fuel g
  = Some ((λ x, pick x (elems g)) <$> l,
          {| bmap := m0; elems := elems g; from := from g; greater := false;
             ssize := ssize g |}).
Proof.
  induction 1 as [m|m m' l e Hnext _ IH];
    intros m0 g fuel Hlast Hbm Hne Hlen Hgr Hfuel.
  - destruct fuel as [|fuel]; [cbn in Hfuel; lia|].
    cbn [drive]. unfold hasNext at 1. rewrite Hgr. cbn [orb].
    unfold get. rewrite Hbm, bool_decide_false by done.
    cbn [mbind option_bind]. rewrite Hbm, select_pick by lia.
    cbn [mbind option_bind]. rewrite Hlast. cbn [mbind option_bind].
    assert (m0 ≠ []) as Hm0.
    { intros ->. pose proof (length_next_permutation m) as Hl.
      rewrite Hlast in Hl. cbn in Hl. by destruct m. }
    destruct fuel; cbn [drive]; unfold hasNext; cbn [greater bmap orb];
      rewrite (bool_decide_false _ Hm0); done.
  - destruct fuel as [|fuel]; [cbn in Hfuel; lia|].
    cbn [drive]. unfold hasNext at 1. rewrite Hgr. cbn [orb].
    unfold get. rewrite Hbm, bool_decide_false by done.
    cbn [mbind option_bind]. rewrite Hbm, select_pick by lia.
    cbn [mbind option_bind]. rewrite Hnext. cbn [mbind option_bind].
    pose proof (length_next_permutation m) as Hl. rewrite Hnext in Hl.
    cbn [fst] in Hl.
    rewrite (IH m0); cbn [bmap elems greater from ssize]; try done.
    + intros ->. by destruct m.
    + congruence.
    + cbn [length] in Hfuel. lia.
Qed.

(** The first call fills the selection vector with [lowest]; from then
    on the generator behaves as one constructed in that state. *)
Lemma drive_new pool k fuel :
  (k ≤ length pool)%nat → pool ≠ [] →
  drive fuel (new pool k)
  = drive fuel {| bmap := lowest (length pool) k; elems := pool;
                  from := pool; greater := true; ssize := k |}.
Proof.
  intros Hk Hne.
  assert (lowest (length pool) k ≠ []) as Hlow.
  { intros H%(f_equal length). unfold lowest in H.
    rewrite length_app, !length_replicate in H.
    destruct pool; [done|]. cbn [length] in *. lia. }
  destruct fuel as [|fuel]; cbn [drive]; unfold hasNext;
    cbn [new bmap greater from ssize orb andb];
    rewrite bool_decide_true by done; rewrite bool_decide_true by done;
    cbn [andb]; [done|].
  f_equal. unfold get, new. cbn [bmap elems from ssize greater].
  rewrite bool_decide_true by done. rewrite (bool_decide_false _ Hlow).
  unfold fill_from. rewrite length_replicate.
  rewrite decide_True by lia. cbn [mbind option_bind bmap elems from ssize app].
  replace (Z.to_nat (Z.of_nat (length pool) - Z.of_nat k))
    with (length pool - k)%nat by lia.
  rewrite take_replicate.
  replace ((length pool - k) `min` length pool)%nat with (length pool - k)%nat
    by lia.
  replace (length pool - (length pool - k))%nat with k by lia.
  done.
Qed.

(** With an empty pool and a sample size of zero [hasNext()] is true,
    [get()] is defined, returns the empty combination and leaves the
    generator in the state it was in.  So every iteration of the loop is
    defined: after any number [n] of iterations the loop has produced [n]
    empty combinations, the state is still the initial one, in which
    [hasNext()] is true, and the loop has not ended. *)
Theorem empty_pool_zero_sample_never_ends (n : nat) :
  hasNext (new (@nil A) 0) = true
  ∧ get (new (@nil A) 0) = Some ([], new (@nil A) 0)
  ∧ iterations n (new (@nil A) 0) = Some (replicate n [], new (@nil A) 0)
  ∧ drive n (new (@nil A) 0) = None.
Proof.
  assert (hasNext (new (@nil A) 0) = true) as Hnext by done.
  assert (get (new (@nil A) 0) = Some ([], new (@nil A) 0)) as Hget by done.
  split_and!; [done|done| |].
  - induction n as [|n IH]; [done|].
    cbn [iterations replicate]. rewrite Hnext, Hget.
    cbn [mbind option_bind]. by rewrite IH.
  - induction n as [|n IH]; [done|].
    cbn [drive]. rewrite Hnext, Hget. cbn [mbind option_bind]. by rewrite IH.
Qed.

End Driver.

Section Binomial.

Lemma binom_gt n k : (n < k)%nat → binom n k = 0%nat.
Proof. intros H. by rewrite <- length_masks, masks_gt. Qed.

(** [binom n k] is the binomial coefficient: [n! / (k! (n - k)!)]. *)
Lemma binom_fact n : ∀ k,
  (k ≤ n)%nat → (binom n k * (fact k * fact (n - k)) = fact n)%nat.
Proof.
  induction n as [|n IH]; intros k Hk.
  - by assert (k = 0)%nat as -> by lia.
  - destruct k as [|k].
    + cbn [binom]. rewrite Nat.sub_0_r. cbn [fact]. lia.
    + cbn [binom]. destruct (decide (k = n)) as [->|Hne].
      * rewrite (binom_gt n (S n)) by lia. specialize (IH n ltac:(lia)).
        rewrite Nat.sub_diag in *. cbn [fact] in *. nia.
      * pose proof (IH k ltac:(lia)) as H1.
        pose proof (IH (S k) ltac:(lia)) as H2.
        replace (n - k)%nat with (S (n - S k)) in H1 by lia.
        replace (S n - S k)%nat with (S (n - S k)) by lia.
        cbn [fact] in *.
        transitivity (S k * (binom n k * (fact k * (S (n - S k) * fact (n - S k))))
                      + S (n - S k)
                        * (binom n (S k) * (S k * fact k * fact (n - S k))))%nat;
          [ring|].
        rewrite H1, H2, <- Nat.mul_add_distr_r. f_equal. lia.
Qed.

End Binomial.

Section CombinationGeneratorTheorems.
Import CombinationGenerator.
Context {A : Type}.
Implicit Types (g : CombinationGenerator A) (pool : list A).

(** C4, amended: for a pool of [n] pairwise distinct elements and a
    sample size [k], not both zero, the loop [while (hasNext()) get()]
    ends after exactly C(n, k) calls; the lists produced are pairwise
    distinct, each has [k] elements and is a subsequence of the pool; for
    [k = 0] the only list is the empty one, and for [k > n] [hasNext()] is
    false from the start and nothing is produced. *)
Theorem combinations_enumerated pool (k : nat) :
  NoDup pool → pool ≠ [] ∨ k ≠ 0%nat →
  ∃ cs g,
    (∀ fuel, (binom (length pool) k ≤ fuel)%nat →
             drive fuel (new pool k) = Some (cs, g))
    ∧ hasNext g = false
    ∧ length cs = binom (length pool) k
    ∧ NoDup cs
    ∧ Forall (λ c, length c = k ∧ c `sublist_of` pool) cs
    ∧ (k = 0%nat → cs = [[]])
    ∧ ((length pool < k)%nat → hasNext (new pool k) = false ∧ cs = []).
Proof.
  intros Hnd Hne.
  destruct (decide (k ≤ length pool)%nat) as [Hk|Hk].
  - assert (pool ≠ []) as Hpool.
    { destruct Hne as [|Hne]; [done|]. intros ->. cbn in Hk. lia. }
    exists ((λ m, pick m pool) <$> masks (length pool) k).
    eexists. split_and!.
    + intros fuel Hfuel. rewrite drive_new by done.
      eapply (drive_chain _ _ _ (chain_masks (length pool) k Hk)).
      * apply next_permutation_descending.
      * done.
      * intros H%(f_equal length). unfold lowest in H.
        rewrite length_app, !length_replicate in H.
        destruct pool; [done|]. cbn [length] in *. lia.
      * unfold lowest. cbn [elems].
        rewrite length_app, !length_replicate. lia.
      * done.
      * by rewrite length_masks.
    + unfold hasNext. cbn [greater bmap orb].
      rewrite bool_decide_false; [done|].
      intros H%(f_equal length).
      rewrite length_app, !length_replicate in H.
      destruct pool; [done|]. cbn [length] in *. lia.
    + by rewrite length_fmap, length_masks.
    + apply NoDup_fmap_2_strong; [|apply NoDup_masks].
      intros m1 m2 [H1 _]%masks_shape [H2 _]%masks_shape Heq.
      by apply (pick_inj pool).
    + apply Forall_fmap, Forall_forall. intros m [H1 H2]%masks_shape.
      cbn. split; [|apply pick_sublist]. by rewrite length_pick.
    + intros ->. rewrite masks_0. cbn [fmap list_fmap]. f_equal.
      clear. induction pool as [|e pool IH]; [done|]. done.
    + intros H. lia.
  - exists [], (new pool k).
    assert (hasNext (new pool k) = false) as Hnext.
    { unfold hasNext. cbn [new greater bmap from ssize orb].
      by rewrite (bool_decide_false (k ≤ _)%nat), andb_false_r by done. }
    split_and!; try done.
    + intros fuel _. destruct fuel; cbn [drive]; by rewrite Hnext.
    + rewrite binom_gt by lia. done.
    + apply NoDup_nil_2.
    + intros ->. lia.
Qed.

End CombinationGeneratorTheorems.

(** C4, as stated, fails: over the pool [1; 1] with sample size 1 the
    loop produces the list [1] twice, so the lists are not pairwise
    distinct. *)
Lemma equal_elements_give_equal_combinations :
  CombinationGenerator.drive 2 (CombinationGenerator.new [1; 1]%nat 1)
    = Some ([[1]; [1]]%nat,
            {| CombinationGenerator.bmap := [false; true];
               CombinationGenerator.elems := [1; 1]%nat;
               CombinationGenerator.from := [1; 1]%nat;
               CombinationGenerator.greater := false;
               CombinationGenerator.ssize := 1 |})
  ∧ ¬ enumerates_combinations [1; 1]%nat 1.
Proof.
  split; [done|].
  intros (fuel & cs & g & Hdrive & _ & Hnd & _).
  assert (cs = [[1]; [1]]%nat) as ->.
  { do 2 (destruct fuel as [|fuel]; [by vm_compute in Hdrive|]).
    destruct fuel; vm_compute in Hdrive; congruence. }
  apply NoDup_cons in Hnd as [Hin _]. apply Hin. by left.
Qed.

(** An instance: the six pairs of a pool of four elements. *)
Lemma combinations_enumerated_witness :
  ∃ cs g,
    (∀ fuel, (6 ≤ fuel)%nat →
             CombinationGenerator.drive fuel
               (CombinationGenerator.new [1; 2; 3; 4]%nat 2) = Some (cs, g))
    ∧ CombinationGenerator.hasNext g = false
    ∧ length cs = 6%nat
    ∧ NoDup cs
    ∧ Forall (λ c, length c = 2%nat ∧ c `sublist_of` [1; 2; 3; 4]%nat) cs
    ∧ (2 = 0 → cs = [[]])%nat
    ∧ ((4 < 2)%nat →
       CombinationGenerator.hasNext (CombinationGenerator.new [1; 2; 3; 4]%nat 2)
         = false ∧ cs = []).
Proof.
  apply (combinations_enumerated [1; 2; 3; 4]%nat 2).
  - apply (bool_decide_unpack _). by vm_compute.
  - by left.
Defined.

(** * The codec on arbitrary bytes *)

Section CodecBytes.
Import Endian.

Lemma u16_small z : 0 ≤ z < 2 ^ 16 → u16 z = z.
Proof. apply Z.mod_small. Qed.

Lemma u16_i32 z : u16 (i32 z) = u16 z.
Proof.
  unfold u16, i32.
  replace ((z + 2 ^ 31) mod 2 ^ 32 - 2 ^ 31)
    with (z - 2 ^ 16 * (2 ^ 16 * ((z + 2 ^ 31) / 2 ^ 32))).
  - rewrite Zminus_mod, Z.mul_comm, Z_mod_mult, Z.sub_0_r. apply Zmod_mod.
  - pose proof (Z.div_mod (z + 2 ^ 31) (2 ^ 32)). lia.
Qed.

Lemma u16_lor a b : u16 (Z.lor a b) = Z.lor (u16 a) (u16 b).
Proof.
  unfold u16. rewrite <- !Z.land_ones by lia. apply Z.land_lor_distr_l.
Qed.

Lemma testbit_byte_at v k n :
  0 ≤ k → 0 ≤ n →
  Z.testbit (byte_at v k) n = (n <? 8) && Z.testbit v (n + 8 * k).
Proof.
  intros Hk Hn. rewrite <- (land_shiftr_byte v k (8 * k)) by done.
  rewrite Z.land_spec, Z.shiftr_spec by done.
  change 255 with (Z.ones 8). rewrite Z.testbit_ones by lia.
  decide_cmp. simpl. apply andb_comm.
Qed.

Lemma byte_at_lor a b k :
  0 ≤ k → byte_at (Z.lor a b) k = Z.lor (byte_at a k) (byte_at b k).
Proof.
  intros Hk. apply Z.bits_inj'. intros n Hn.
  rewrite Z.lor_spec, !testbit_byte_at, Z.lor_spec by done.
  apply andb_orb_distrib_r.
Qed.

Lemma byte_at_shiftl b j s k :
  s = 8 * j → 0 ≤ b < 256 → 0 ≤ j → 0 ≤ k →
  byte_at (Z.shiftl b s) k = if decide (j = k) then b else 0.
Proof.
  intros -> Hb Hj Hk. apply Z.bits_inj'. intros n Hn.
  rewrite testbit_byte_at, Z.shiftl_spec by lia.
  destruct (decide (j = k)) as [->|Hne].
  - replace (n + 8 * k - 8 * k) with n by lia.
    destruct (Z.ltb_spec n 8); [done|].
    symmetry. apply (testbit_above b 8); lia.
  - rewrite Z.bits_0. destruct (Z.ltb_spec n 8); [|done]. cbn [andb].
    destruct (decide (j < k)).
    + apply (testbit_above b 8); lia.
    + apply Z.testbit_neg_r. lia.
Qed.

Lemma byte_at_small v k w :
  0 ≤ v < 2 ^ (8 * w) → 0 ≤ w ≤ k → byte_at v k = 0.
Proof.
  intros Hv Hk. apply Z.bits_inj'. intros n Hn.
  rewrite testbit_byte_at, Z.bits_0 by lia.
  rewrite (testbit_above v (8 * w)) by lia. apply andb_false_r.
Qed.


(** The value [be32decode] computes from four bytes, without the
    conversions. *)
Lemma be32decode_value p r off b0 b1 b2 b3 :
  off = length p →
  0 ≤ b0 < 256 → 0 ≤ b1 < 256 → 0 ≤ b2 < 256 → 0 ≤ b3 < 256 →
  be32decode (p ++ [b0; b1; b2; b3] ++ r) off
  = Some (Z.lor (Z.lor (Z.lor (Z.shiftl b3 0) (Z.shiftl b2 8))
            (Z.shiftl b1 16)) (Z.shiftl b0 24)).
Proof.
  intros Hp H0 H1 H2 H3. unfold be32decode.
  rewrite (peek_window0 p _ r off) by (done || simpl; lia).
  cbn [mbind option_bind].
  do 3 (rewrite (peek_window p _ r off) by (done || simpl; lia);
        cbn [mbind option_bind]).
  cbn [lookup list_lookup mbind option_bind]. f_equal.
  rewrite !u32_lor, !u32_i32.
  rewrite (u32_small (Z.shiftl b3 0)) by (apply (shiftl_byte_small _ 0); lia).
  rewrite (u32_small (Z.shiftl b2 8)) by (apply (shiftl_byte_small _ 1); lia).
  rewrite (u32_small (Z.shiftl b1 16)) by (apply (shiftl_byte_small _ 2); lia).
  rewrite (u32_small (Z.shiftl b0 24)) by (apply (shiftl_byte_small _ 3); lia).
  done.
Qed.

Lemma be64decode_value p r off b0 b1 b2 b3 b4 b5 b6 b7 :
  off = length p →
  0 ≤ b0 < 256 → 0 ≤ b1 < 256 → 0 ≤ b2 < 256 → 0 ≤ b3 < 256 →
  0 ≤ b4 < 256 → 0 ≤ b5 < 256 → 0 ≤ b6 < 256 → 0 ≤ b7 < 256 →
  be64decode (p ++ [b0; b1; b2; b3; b4; b5; b6; b7] ++ r) off
  = Some (Z.lor (Z.lor (Z.lor (Z.lor (Z.lor (Z.lor (Z.lor
            (Z.shiftl b7 0) (Z.shiftl b6 8)) (Z.shiftl b5 16))
            (Z.shiftl b4 24)) (Z.shiftl b3 32)) (Z.shiftl b2 40))
            (Z.shiftl b1 48)) (Z.shiftl b0 56)).
Proof.
  intros Hp H0 H1 H2 H3 H4 H5 H6 H7. unfold be64decode.
  rewrite (peek_window0 p _ r off) by (done || simpl; lia).
  cbn [mbind option_bind].
  do 7 (rewrite (peek_window p _ r off) by (done || simpl; lia);
        cbn [mbind option_bind]).
  cbn [lookup list_lookup mbind option_bind]. f_equal.
  rewrite (i32_small (Z.shiftl b7 0)) by (rewrite Z.shiftl_0_r; lia).
  rewrite (u64_small (Z.shiftl b7 0)) by (apply (shiftl_byte_small _ 0); lia).
  rewrite (u64_small (Z.shiftl b6 8)) by (apply (shiftl_byte_small _ 1); lia).
  rewrite (u64_small (Z.shiftl b5 16)) by (apply (shiftl_byte_small _ 2); lia).
  rewrite (u64_small (Z.shiftl b4 24)) by (apply (shiftl_byte_small _ 3); lia).
  rewrite (u64_small (Z.shiftl b3 32)) by (apply (shiftl_byte_small _ 4); lia).
  rewrite (u64_small (Z.shiftl b2 40)) by (apply (shiftl_byte_small _ 5); lia).
  rewrite (u64_small (Z.shiftl b1 48)) by (apply (shiftl_byte_small _ 6); lia).
  rewrite (u64_small (Z.shiftl b0 56)) by (apply (shiftl_byte_small _ 7); lia).
  done.
Qed.

Lemma be16decode_value p r off b0 b1 :
  off = length p → 0 ≤ b0 < 256 → 0 ≤ b1 < 256 →
  be16decode (p ++ [b0; b1] ++ r) off
  = Some (Z.lor (Z.shiftl b1 0) (Z.shiftl b0 8)).
Proof.
  intros Hp H0 H1. unfold be16decode.
  rewrite (peek_window0 p _ r off) by (done || simpl; lia).
  cbn [mbind option_bind].
  rewrite (peek_window p _ r off) by (done || simpl; lia).
  cbn [lookup list_lookup mbind option_bind]. f_equal.
  rewrite u16_lor, !u16_i32.
  rewrite (u16_small (Z.shiftl b1 0)) by (apply (shiftl_byte_small _ 0); lia).
  rewrite (u16_small (Z.shiftl b0 8)) by (apply (shiftl_byte_small _ 1); lia).
  done.
Qed.

Lemma be16encode_spec val m off :
  (off + 2 ≤ length m)%nat →
  be16encode val m off = Some (overwrite off [byte_at val 1; byte_at val 0] m).
Proof.
  intros H.
  destruct (split_at m off 2 H) as (p & w & r & -> & Hp & Hw & _).
  rewrite (overwrite_window p w r) by done.
  do 3 (destruct w as [|? w]; try discriminate). clear Hw H.
  unfold be16encode.
  rewrite poke_window0 by (done || simpl; lia). cbn [mbind option_bind].
  rewrite poke_window by (done || simpl; lia).
  cbn [list_insert insert].
  by rewrite (land_shiftr_byte val 1), land_byte0 by lia.
Qed.

Lemma u64_lor a b : u64 (Z.lor a b) = Z.lor (u64 a) (u64 b).
Proof.
  unfold u64. rewrite <- !Z.land_ones by lia. apply Z.land_lor_distr_l.
Qed.

End CodecBytes.

(** Rewrites the bytes of an or of shifted bytes. *)
Ltac shifted_byte :=
  match goal with
  | |- context [byte_at (Z.shiftl ?b ?s) ?k] =>
      let j := eval compute in (s / 8) in
      rewrite (byte_at_shiftl b j s k) by (reflexivity || lia)
  end.

Ltac bytes_of_lor :=
  repeat (rewrite byte_at_lor by lia);
  repeat shifted_byte;
  repeat (rewrite decide_True by lia || rewrite decide_False by lia);
  rewrite ?Z.lor_0_l, ?Z.lor_0_r.

Section CodecTheorems.
Import Endian.

(** [be32encode] and [be16encode] store the most significant byte first,
    into the four (two) bytes at the pointer and nowhere else. *)
Theorem be32encode_be16encode_most_significant_first (val : Z) (m : list Z)
    (off : nat) :
  ((off + 4 ≤ length m)%nat →
     be32encode val m off
     = Some (take off m
             ++ [byte_at val 3; byte_at val 2; byte_at val 1; byte_at val 0]
             ++ drop (off + 4) m))
  ∧ ((off + 2 ≤ length m)%nat →
     be16encode val m off
     = Some (take off m ++ [byte_at val 1; byte_at val 0] ++ drop (off + 2) m)).
Proof.
  split; intros H.
  - by rewrite be32encode_spec.
  - by rewrite be16encode_spec.
Qed.

(** An instance: the values of the repository's tests. *)
Lemma be32encode_be16encode_witness :
  be32encode 0x12345678 [9; 9; 9; 9; 9] 1 = Some [9; 0x12; 0x34; 0x56; 0x78]
  ∧ be16encode 0x1234 [9; 9; 9] 0 = Some [0x12; 0x34; 9].
Proof.
  split.
  - apply (proj1 (be32encode_be16encode_most_significant_first
                    0x12345678 [9; 9; 9; 9; 9] 1)). cbn. lia.
  - apply (proj2 (be32encode_be16encode_most_significant_first
                    0x1234 [9; 9; 9] 0)). cbn. lia.
Defined.

(** The 16-bit round trip of the endian tests: [be16decode] of what
    [be16encode] stored gives the value back. *)
Theorem be16_encode_then_decode (v : Z) (m : list Z) (off : nat) :
  0 ≤ v < 2 ^ 16 → (off + 2 ≤ length m)%nat →
  (m' ← be16encode v m off; be16decode m' off) = Some v.
Proof.
  intros Hv Hlen. rewrite be16encode_spec by done. cbn [mbind option_bind].
  unfold overwrite.
  rewrite be16decode_value; try apply byte_at_range.
  2: { rewrite length_take. lia. }
  f_equal. apply Z.bits_inj'. intros n Hn.
  rewrite Z.lor_spec.
  rewrite (byte_at_testbit v 0), (byte_at_testbit v 1) by lia.
  assert (n < 8 ∨ 8 ≤ n < 16 ∨ 16 ≤ n) as Hc by lia.
  destruct Hc as [?|[?|?]]; decide_cmp; simpl; rewrite ?orb_false_r; try done.
  symmetry. by apply (testbit_above v 16).
Qed.

(** An instance: the value of the repository's test. *)
Lemma be16_encode_then_decode_witness :
  (m' ← be16encode 0x1234 [0; 0] 0; be16decode m' 0) = Some 0x1234.
Proof. apply be16_encode_then_decode; [lia|cbn; lia]. Defined.

(** The other direction of the round trip: on any bytes, each decoder
    returns a value of its width, and encoding that value at the same
    pointer stores the bytes that were there: nothing changes. *)
Theorem decode_then_encode_restores_bytes (m : list Z) (off : nat) :
  Forall (λ b, 0 ≤ b < 256) m →
  ((off + 8 ≤ length m)%nat →
     ∃ v, be64decode m off = Some v ∧ 0 ≤ v < 2 ^ 64
          ∧ be64encode v m off = Some m)
  ∧ ((off + 4 ≤ length m)%nat →
     ∃ v, be32decode m off = Some v ∧ 0 ≤ v < 2 ^ 32
          ∧ be32encode v m off = Some m)
  ∧ ((off + 2 ≤ length m)%nat →
     ∃ v, be16decode m off = Some v ∧ 0 ≤ v < 2 ^ 16
          ∧ be16encode v m off = Some m).
Proof.
  intros Hm. split_and!; intros H.
  - destruct (split_at m off 8 H) as (p & w & r & -> & Hp & Hw & _).
    do 9 (destruct w as [|? w]; try discriminate). clear Hw H.
    apply Forall_app in Hm as [_ Hm]. apply Forall_app in Hm as [Hm _].
    repeat (apply Forall_cons in Hm as [? Hm]).
    eexists. split; [by apply be64decode_value|].
    set (v := Z.lor _ _). split.
    + assert (u64 v = v) as <-; [|apply Z.mod_pos_bound; lia].
      unfold v. rewrite !u64_lor.
      rewrite (u64_small (Z.shiftl _ 0)) by (apply (shiftl_byte_small _ 0); lia).
      rewrite (u64_small (Z.shiftl _ 8)) by (apply (shiftl_byte_small _ 1); lia).
      rewrite (u64_small (Z.shiftl _ 16)) by (apply (shiftl_byte_small _ 2); lia).
      rewrite (u64_small (Z.shiftl _ 24)) by (apply (shiftl_byte_small _ 3); lia).
      rewrite (u64_small (Z.shiftl _ 32)) by (apply (shiftl_byte_small _ 4); lia).
      rewrite (u64_small (Z.shiftl _ 40)) by (apply (shiftl_byte_small _ 5); lia).
      rewrite (u64_small (Z.shiftl _ 48)) by (apply (shiftl_byte_small _ 6); lia).
      rewrite (u64_small (Z.shiftl _ 56)) by (apply (shiftl_byte_small _ 7); lia).
      done.
    + rewrite be64encode_spec by (rewrite !length_app; simpl; lia).
      rewrite (overwrite_window p _ r) by done.
      unfold be64bytes, v. bytes_of_lor. done.
  - destruct (split_at m off 4 H) as (p & w & r & -> & Hp & Hw & _).
    do 5 (destruct w as [|? w]; try discriminate). clear Hw H.
    apply Forall_app in Hm as [_ Hm]. apply Forall_app in Hm as [Hm _].
    repeat (apply Forall_cons in Hm as [? Hm]).
    eexists. split; [by apply be32decode_value|].
    set (v := Z.lor _ _). split.
    + assert (u32 v = v) as <-; [|apply u32_range].
      unfold v. rewrite !u32_lor.
      rewrite (u32_small (Z.shiftl _ 0)) by (apply (shiftl_byte_small _ 0); lia).
      rewrite (u32_small (Z.shiftl _ 8)) by (apply (shiftl_byte_small _ 1); lia).
      rewrite (u32_small (Z.shiftl _ 16)) by (apply (shiftl_byte_small _ 2); lia).
      rewrite (u32_small (Z.shiftl _ 24)) by (apply (shiftl_byte_small _ 3); lia).
      done.
    + rewrite be32encode_spec by (rewrite !length_app; simpl; lia).
      rewrite (overwrite_window p _ r) by done.
      unfold be32bytes, v. bytes_of_lor. done.
  - destruct (split_at m off 2 H) as (p & w & r & -> & Hp & Hw & _).
    do 3 (destruct w as [|? w]; try discriminate). clear Hw H.
    apply Forall_app in Hm as [_ Hm]. apply Forall_app in Hm as [Hm _].
    repeat (apply Forall_cons in Hm as [? Hm]).
    eexists. split; [by apply be16decode_value|].
    set (v := Z.lor _ _). split.
    + assert (u16 v = v) as <-; [|apply Z.mod_pos_bound; lia].
      unfold v. rewrite !u16_lor.
      rewrite (u16_small (Z.shiftl _ 0)) by (apply (shiftl_byte_small _ 0); lia).
      rewrite (u16_small (Z.shiftl _ 8)) by (apply (shiftl_byte_small _ 1); lia).
      done.
    + rewrite be16encode_spec by (rewrite !length_app; simpl; lia).
      rewrite (overwrite_window p _ r) by done.
      unfold v. bytes_of_lor. done.
Qed.

(** An instance: four bytes inside a six byte buffer. *)
Lemma decode_then_encode_witness :
  ∃ v, be32decode [7; 0xDE; 0xAD; 0xBE; 0xEF; 7] 1 = Some v ∧ 0 ≤ v < 2 ^ 32
       ∧ be32encode v [7; 0xDE; 0xAD; 0xBE; 0xEF; 7] 1
         = Some [7; 0xDE; 0xAD; 0xBE; 0xEF; 7].
Proof.
  apply (decode_then_encode_restores_bytes [7; 0xDE; 0xAD; 0xBE; 0xEF; 7] 1).
  - repeat constructor; lia.
  - cbn. lia.
Defined.

End CodecTheorems.

(** * ByteBuffer: messages *)

Section AppendMode.
Import Endian ByteBuffer.

(** Storing at the end of the old content, into the zeros just added. *)
Lemma overwrite_end (l enc : list Z) (z : Z) (n : nat) :
  z = Z.of_nat (length l) → n = length enc →
  overwrite (Z.to_nat z) enc (l ++ replicate n 0) = l ++ enc.
Proof.
  intros -> ->. rewrite Nat2Z.id.
  rewrite <- (app_nil_r (replicate _ 0)).
  rewrite (overwrite_window l (replicate (length enc) 0) [])
    by (by rewrite ?length_replicate).
  by rewrite app_nil_r.
Qed.

Lemma writeUint_append v b :
  pos b = Z.of_nat (length (buf b)) →
  Z.of_nat (length (buf b)) + 4 < 2 ^ 32 →
  writeUint v b = Some {| buf := buf b ++ be32bytes v; pos := pos b + 4 |}.
Proof.
  intros Hpos Hlen. rewrite writeUint_spec by lia.
  rewrite overwrite_end by done. by rewrite (u32_small (pos b + 4)) by lia.
Qed.

Lemma length_ResourceSet_seq (s : gset Z) :
  length (Resources.ResourceSet_seq s) = base.size s.
Proof.
  unfold Resources.ResourceSet_seq.
  by rewrite (Permutation_length (merge_sort_Permutation _ _)).
Qed.

Lemma list_to_set_ResourceSet_seq (s : gset Z) :
  list_to_set (Resources.ResourceSet_seq s) = s.
Proof.
  unfold Resources.ResourceSet_seq.
  rewrite (list_to_set_perm_L _ _ (merge_sort_Permutation _ _)).
  apply list_to_set_elements_L.
Qed.

Lemma Forall_ResourceSet_seq (P : Z → Prop) (s : gset Z) :
  set_Forall P s → Forall P (Resources.ResourceSet_seq s).
Proof.
  intros H. apply Forall_forall. intros x Hx. apply H.
  unfold Resources.ResourceSet_seq in Hx.
  rewrite merge_sort_Permutation in Hx. by apply elem_of_elements.
Qed.

Lemma writeRset_loop_append ints : ∀ b,
  pos b = Z.of_nat (length (buf b)) →
  Z.of_nat (length (buf b)) + 4 * Z.of_nat (length ints) < 2 ^ 32 →
  writeRset_loop ints b
  = Some {| buf := buf b ++ int_bytes ints;
            pos := pos b + 4 * Z.of_nat (length ints) |}.
Proof.
  induction ints as [|i ints IH]; intros [m p] Hpos Hlen; cbn [buf pos] in *.
  - cbn. rewrite app_nil_r. do 2 f_equal. lia.
  - cbn [writeRset_loop length] in *. unfold writeInt.
    rewrite writeUint_append by (cbn [buf pos]; lia).
    cbn [mbind option_bind buf pos].
    rewrite IH; cbn [buf pos].
    + unfold int_bytes. rewrite bind_cons, <- app_assoc.
      do 2 f_equal. lia.
    + rewrite length_app. cbn [be32bytes length]. lia.
    + rewrite length_app. cbn [be32bytes length]. lia.
Qed.

Lemma write_field_append f b :
  representable f →
  pos b = Z.of_nat (length (buf b)) →
  Z.of_nat (length (buf b)) + Z.of_nat (length (wire f)) < 2 ^ 32 →
  write_field f b
  = Some {| buf := buf b ++ wire f;
            pos := pos b + Z.of_nat (length (wire f)) |}.
Proof.
  intros Hrep Hpos Hlen. destruct f as [v|v|v|v|s|s|o]; cbn [write_field wire] in *.
  - cbn [be64bytes length] in Hlen. rewrite writeU64_spec by lia.
    rewrite overwrite_end by done. by rewrite u32_small by lia.
  - cbn [be32bytes length] in Hlen. by rewrite writeUint_append by lia.
  - cbn [be32bytes length] in Hlen. unfold writeInt.
    by rewrite writeUint_append by lia.
  - cbn [length] in Hlen. rewrite writeBool_spec by lia.
    rewrite overwrite_end by done. by rewrite u32_small by lia.
  - rewrite length_app, length_fmap in *. cbn [be32bytes length] in *.
    rewrite writeString_spec by lia.
    rewrite overwrite_end; [do 2 f_equal; lia|done|].
    rewrite length_app, length_fmap. done.
  - rewrite length_app, length_int_bytes, length_ResourceSet_seq in *.
    cbn [be32bytes length] in *.
    unfold writeRset. cbn zeta.
    rewrite (u32_small (Z.of_nat (base.size s))) by lia.
    rewrite writeUint_append by lia. cbn [mbind option_bind].
    unfold Resources.ResourceIterator, Resources.Iterator_of.
    cbn [Resources.current].
    rewrite writeRset_loop_append; cbn [buf pos];
      rewrite ?length_app, ?length_ResourceSet_seq; cbn [be32bytes length];
      try lia.
    rewrite <- app_assoc. do 2 f_equal. lia.
  - rewrite length_app in *. cbn [be32bytes length] in *.
    rewrite writeBuffer_spec by lia.
    rewrite overwrite_end by done. rewrite <- app_assoc. do 2 f_equal. lia.
Qed.

End AppendMode.

Section Messages.
Import Endian ByteBuffer.

Lemma read_field_wire f p r z :
  representable f →
  z = Z.of_nat (length p) →
  z + Z.of_nat (length (wire f)) < 2 ^ 32 →
  read_field f {| buf := p ++ wire f ++ r; pos := z |}
  = Some (as_read f,
          {| buf := p ++ wire f ++ r; pos := z + Z.of_nat (length (wire f)) |}).
Proof.
  intros Hrep Hz Hlen.
  destruct f as [v|v|v|v|s|s|o]; cbn [read_field wire as_read representable] in *.
  - unfold readU64. cbn [buf pos].
    rewrite be64decode_bytes by (done || lia). cbn [mbind option_bind].
    unfold advance. cbn [buf pos be64bytes length] in *.
    by rewrite u32_small by lia.
  - cbn [be32bytes length] in Hlen. by rewrite readUint_bytes by lia.
  - cbn [be32bytes length] in Hlen. by rewrite readInt_bytes by lia.
  - unfold readBool. cbn [buf pos].
    rewrite (peek_window0 p _ r) by (cbn [length]; lia).
    cbn [lookup list_lookup mbind option_bind length] in *.
    unfold advance. cbn [buf pos]. rewrite u32_small by lia.
    by destruct v.
  - rewrite length_app, length_fmap in Hlen. cbn [be32bytes length] in Hlen.
    unfold readString. rewrite <- (app_assoc (be32bytes _)).
    rewrite readUint_bytes by lia. cbn [mbind option_bind].
    rewrite Nat2Z.id.
    rewrite readString_loop_spec; cbn [buf pos]; try lia.
    + cbn [mbind option_bind app]. do 2 f_equal.
      * f_equal.
        replace (Z.to_nat (z + 4))
          with (length (p ++ be32bytes (Z.of_nat (length s))))
          by (rewrite length_app; cbn [be32bytes length]; lia).
        rewrite (app_assoc p), drop_app_length.
        rewrite take_app_length' by (by rewrite length_fmap).
        apply chars_of_bytes_of_chars.
      * f_equal. rewrite length_app, length_fmap. cbn [be32bytes length]. lia.
    + rewrite !length_app, length_fmap. cbn [be32bytes length]. lia.
  - rewrite length_app, length_int_bytes, length_ResourceSet_seq in Hlen.
    cbn [be32bytes length] in Hlen.
    unfold readRset. rewrite <- (app_assoc (be32bytes _)).
    rewrite readUint_bytes by lia. cbn [mbind option_bind].
    rewrite Nat2Z.id, <- length_ResourceSet_seq, (app_assoc p).
    rewrite readRset_loop_spec.
    + cbn [mbind option_bind].
      rewrite (left_id_L ∅ (∪)), list_to_set_ResourceSet_seq.
      do 3 f_equal. rewrite length_app, length_int_bytes.
      cbn [be32bytes length]. lia.
    + rewrite length_app. cbn [be32bytes length]. lia.
    + by apply Forall_ResourceSet_seq.
    + rewrite length_ResourceSet_seq. lia.
  - rewrite length_app in Hlen. cbn [be32bytes length] in Hlen.
    unfold readBuffer. rewrite <- (app_assoc (be32bytes _)).
    rewrite readUint_bytes by lia. cbn [mbind option_bind buf pos].
    unfold load. rewrite decide_True.
    + cbn [mbind option_bind clear buf pos]. unfold advance. cbn [buf pos].
      rewrite u32_small by lia. do 2 f_equal.
      * do 2 f_equal. rewrite app_nil_r, app_assoc, drop_app_length'.
        -- by rewrite Nat2Z.id, take_app_length.
        -- rewrite length_app. cbn [be32bytes length]. lia.
      * f_equal. rewrite length_app. cbn [be32bytes length]. lia.
    + rewrite !length_app. cbn [be32bytes length]. lia.
Qed.

Lemma write_fields_append fs : ∀ b,
  Forall representable fs →
  pos b = Z.of_nat (length (buf b)) →
  Z.of_nat (length (buf b)) + Z.of_nat (length (fs ≫= wire)) < 2 ^ 32 →
  write_fields fs b
  = Some {| buf := buf b ++ (fs ≫= wire);
            pos := pos b + Z.of_nat (length (fs ≫= wire)) |}.
Proof.
  induction fs as [|f fs IH]; intros [m p] Hrep Hpos Hlen; cbn [buf pos] in *.
  - cbn. rewrite app_nil_r. do 2 f_equal. lia.
  - apply Forall_cons in Hrep as [Hf Hrep].
    rewrite bind_cons, length_app in *. cbn [write_fields].
    rewrite write_field_append by (done || cbn [buf pos]; lia).
    cbn [mbind option_bind buf pos].
    rewrite IH; cbn [buf pos]; rewrite ?length_app; try (done || lia).
    rewrite <- app_assoc. do 2 f_equal. lia.
Qed.

Lemma read_fields_wire fs : ∀ p r z,
  Forall representable fs →
  z = Z.of_nat (length p) →
  z + Z.of_nat (length (fs ≫= wire)) < 2 ^ 32 →
  read_fields fs {| buf := p ++ (fs ≫= wire) ++ r; pos := z |}
  = Some (as_read <$> fs,
          {| buf := p ++ (fs ≫= wire) ++ r;
             pos := z + Z.of_nat (length (fs ≫= wire)) |}).
Proof.
  induction fs as [|f fs IH]; intros p r z Hrep Hz Hlen.
  - cbn. do 3 f_equal. lia.
  - apply Forall_cons in Hrep as [Hf Hrep].
    rewrite bind_cons, length_app in *. cbn [read_fields].
    rewrite <- (app_assoc (wire f)).
    rewrite read_field_wire by (done || lia). cbn [mbind option_bind].
    rewrite (app_assoc p).
    rewrite IH; rewrite ?length_app; try (done || lia).
    cbn [mbind option_bind fmap list_fmap]. do 3 f_equal. lia.
Qed.

End Messages.

Section MessageTheorems.
Import Endian ByteBuffer.

(** With the position at the end of the content, a sequence of writes of
    any of the seven kinds appends the wire forms of the values one after
    another, leaves the old content as it is, and ends with the position
    at the end of the content again; [size()] grows by the bytes
    written. *)
Theorem writes_at_end_append (fs : list field) (b : ByteBuffer) :
  Forall representable fs →
  pos b = Z.of_nat (length (buf b)) →
  Z.of_nat (length (buf b)) + Z.of_nat (length (fs ≫= wire)) < 2 ^ 32 →
  ∃ b', write_fields fs b = Some b'
        ∧ buf b' = buf b ++ (fs ≫= wire)
        ∧ pos b' = Z.of_nat (length (buf b'))
        ∧ size b' = size b + Z.of_nat (length (fs ≫= wire)).
Proof.
  intros Hrep Hpos Hlen. eexists. split; [by apply write_fields_append|].
  cbn [buf pos]. unfold size. cbn [buf]. rewrite length_app.
  split_and!; [done|lia|]. rewrite !u32_small by lia. lia.
Qed.

(** An instance: the writes of the nested buffer test. *)
Lemma writes_at_end_append_witness :
  ∃ b', write_fields [FUint 12345; FString ["t"; "e"; "s"; "t"]%char; FBool true]
          {| buf := [9]; pos := 1 |} = Some b'
        ∧ buf b' = [9; 0; 0; 48; 57; 0; 0; 0; 4; 116; 101; 115; 116; 1]
        ∧ pos b' = Z.of_nat (length (buf b'))
        ∧ size b' = size {| buf := [9]; pos := 1 |} + 13.
Proof.
  apply (writes_at_end_append
           [FUint 12345; FString ["t"; "e"; "s"; "t"]%char; FBool true]
           {| buf := [9]; pos := 1 |}).
  - repeat constructor; cbn; lia.
  - done.
  - cbn. lia.
Defined.

(** A message round trip: any sequence of representable values written to
    a cleared buffer is read back, after [setPos(0)], by the matching
    reads in the same order, and the reads end where the writes ended.
    The same holds for a second buffer that loads the bytes [data()],
    [size()] of the first. *)
Theorem message_roundtrip (fs : list field) (b0 other : ByteBuffer) :
  Forall representable fs →
  Z.of_nat (length (fs ≫= wire)) < 2 ^ 32 →
  ∃ w, write_fields fs (clear b0) = Some w
       ∧ read_fields fs (setPos 0 w) = Some (as_read <$> fs, w)
       ∧ (r ← load (data w) 0 (size w) other; read_fields fs r)
         = Some (as_read <$> fs, w).
Proof.
  intros Hrep Hlen.
  assert (read_fields fs {| buf := fs ≫= wire; pos := 0 |}
          = Some (as_read <$> fs,
                  {| buf := fs ≫= wire;
                     pos := 0 + Z.of_nat (length (fs ≫= wire)) |})) as Hread.
  { pose proof (read_fields_wire fs [] [] 0 Hrep eq_refl) as H.
    cbn [app] in H. rewrite app_nil_r in H. apply H. lia. }
  eexists. split; [apply write_fields_append; cbn [clear buf pos length]; done || lia|].
  unfold clear, setPos, data, size. cbn [buf pos app]. split; [done|].
  unfold load. rewrite u32_small by lia. rewrite Nat2Z.id.
  rewrite decide_True by (cbn; lia).
  cbn [mbind option_bind drop buf pos].
  by rewrite firstn_all, app_nil_r.
Qed.

(** An instance: one value of each kind. *)
Lemma message_roundtrip_witness :
  ∃ w,
    write_fields
      [FU64 0x123456789ABCDEF0; FUint 7; FInt (-12345); FBool true;
       FString ["h"; "i"]%char; FRset {[ 10; 1; 5 ]};
       FBuffer {| buf := [1; 2; 3]; pos := 2 |}]
      (clear new) = Some w
    ∧ read_fields
        [FU64 0x123456789ABCDEF0; FUint 7; FInt (-12345); FBool true;
         FString ["h"; "i"]%char; FRset {[ 10; 1; 5 ]};
         FBuffer {| buf := [1; 2; 3]; pos := 2 |}]
        (setPos 0 w)
      = Some (as_read <$>
                [FU64 0x123456789ABCDEF0; FUint 7; FInt (-12345); FBool true;
                 FString ["h"; "i"]%char; FRset {[ 10; 1; 5 ]};
                 FBuffer {| buf := [1; 2; 3]; pos := 2 |}], w)
    ∧ (r ← load (data w) 0 (size w) new;
       read_fields
         [FU64 0x123456789ABCDEF0; FUint 7; FInt (-12345); FBool true;
          FString ["h"; "i"]%char; FRset {[ 10; 1; 5 ]};
          FBuffer {| buf := [1; 2; 3]; pos := 2 |}] r)
      = Some (as_read <$>
                [FU64 0x123456789ABCDEF0; FUint 7; FInt (-12345); FBool true;
                 FString ["h"; "i"]%char; FRset {[ 10; 1; 5 ]};
                 FBuffer {| buf := [1; 2; 3]; pos := 2 |}], w).
Proof.
  apply (message_roundtrip _ new new).
  - assert (set_Forall (λ i, - 2 ^ 31 ≤ i < 2 ^ 31) ({[ 10; 1; 5 ]} : gset Z))
      as Hs.
    { intros x. rewrite !elem_of_union, !elem_of_singleton. lia. }
    repeat (apply Forall_cons; split); try apply Forall_nil;
      first [exact Hs | exact I | cbn; lia].
  - by vm_compute.
Defined.

End MessageTheorems.

Section MoreBufferTheorems.
Import Endian ByteBuffer.

Lemma cstring_terminated (s rest : list ascii) :
  zero ∉ s → cstring (s ++ zero :: rest) = Some s.
Proof.
  induction s as [|c s IH]; intros Hs; cbn [app cstring].
  - by rewrite decide_True.
  - apply not_elem_of_cons in Hs as [Hc Hs].
    rewrite decide_False by done. by rewrite IH.
Qed.

Lemma cstring_unterminated (s : list ascii) : zero ∉ s → cstring s = None.
Proof.
  induction s as [|c s IH]; intros Hs; cbn [cstring]; [done|].
  apply not_elem_of_cons in Hs as [Hc Hs].
  rewrite decide_False by done. by rewrite IH.
Qed.

(** [writeCstring] writes the characters before the first NUL of the
    memory at the pointer, exactly as [writeString] writes that string,
    whatever follows the NUL; on memory that holds no NUL it is
    undefined. *)
Theorem writeCstring_writes_up_to_first_NUL (s rest : list ascii)
    (b : ByteBuffer) :
  zero ∉ s →
  writeCstring (s ++ zero :: rest) b = writeString s b
  ∧ writeCstring s b = None.
Proof.
  intros Hs. unfold writeCstring.
  by rewrite cstring_terminated, cstring_unterminated.
Qed.

(** An instance: [hi], a NUL, and more characters behind it. *)
Lemma writeCstring_witness :
  writeCstring ["h"; "i"; zero; "x"]%char new
    = writeString ["h"; "i"]%char new
  ∧ writeCstring ["h"; "i"]%char new = None.
Proof.
  apply (writeCstring_writes_up_to_first_NUL ["h"; "i"]%char ["x"]%char new).
  intros H. repeat (apply elem_of_cons in H as [H|H]; [discriminate|]).
  by apply elem_of_nil in H.
Defined.

Lemma Sorted_lt_ResourceSet_seq (s : gset Z) :
  StronglySorted Z.lt (Resources.ResourceSet_seq s).
Proof.
  assert (NoDup (Resources.ResourceSet_seq s)) as Hnd.
  { unfold Resources.ResourceSet_seq. rewrite merge_sort_Permutation.
    apply NoDup_elements. }
  assert (StronglySorted Z.le (Resources.ResourceSet_seq s)) as Hs.
  { apply StronglySorted_merge_sort; apply _. }
  induction Hs as [|x l Hl IH Hx]; [constructor|].
  apply NoDup_cons in Hnd as [Hnot Hnd]. constructor; [by apply IH|].
  apply Forall_forall. intros y Hy.
  pose proof (proj1 (Forall_forall _ _) Hx y Hy).
  assert (x ≠ y) by (by intros ->). lia.
Qed.

(** [writeRset] on a cleared buffer writes the number of elements and
    then the elements in strictly ascending order, four bytes each;
    [readRset] after [setPos(0)] adds exactly the elements of the set to
    its output and ends where the write ended. *)
Theorem writeRset_ascending_readRset_union (s out : gset Z) (b0 : ByteBuffer) :
  set_Forall (λ i, - 2 ^ 31 ≤ i < 2 ^ 31) s →
  4 + 4 * Z.of_nat (base.size s) < 2 ^ 32 →
  ∃ ints w,
    writeRset s (clear b0) = Some w
    ∧ buf w = be32bytes (Z.of_nat (base.size s)) ++ int_bytes ints
    ∧ StronglySorted Z.lt ints
    ∧ list_to_set ints = s
    ∧ readRset out (setPos 0 w) = Some (out ∪ s, w).
Proof.
  intros Hs Hlen. exists (Resources.ResourceSet_seq s).
  assert (Z.of_nat (length (wire (FRset s))) = 4 + 4 * Z.of_nat (base.size s))
    as Hw.
  { cbn [wire]. rewrite length_app, length_int_bytes, length_ResourceSet_seq.
    cbn [be32bytes length]. lia. }
  eexists. split.
  { apply (write_field_append (FRset s)); cbn [clear buf pos length]; [done|done|lia]. }
  cbn [clear buf pos app wire]. unfold setPos. cbn [buf pos].
  split_and!; [done|apply Sorted_lt_ResourceSet_seq
              |apply list_to_set_ResourceSet_seq|].
  unfold readRset.
  pose proof (readUint_bytes [] (int_bytes (Resources.ResourceSet_seq s))
                (Z.of_nat (base.size s)) 0 eq_refl) as Hr.
  cbn [app] in Hr. rewrite Hr by lia. clear Hr. cbn [mbind option_bind].
  rewrite Nat2Z.id, <- length_ResourceSet_seq.
  pose proof (readRset_loop_spec (Resources.ResourceSet_seq s)
                (be32bytes (Z.of_nat (length (Resources.ResourceSet_seq s))))
                [] out (0 + 4) eq_refl) as Hr.
  rewrite app_nil_r in Hr. rewrite Hr.
  - rewrite list_to_set_ResourceSet_seq. do 3 f_equal.
    rewrite ?length_app, ?length_int_bytes, ?length_ResourceSet_seq.
    cbn [be32bytes length]. lia.
  - by apply Forall_ResourceSet_seq.
  - rewrite length_ResourceSet_seq. lia.
Qed.

(** An instance: the set of the repository's test, read into a set that
    holds 7. *)
Lemma writeRset_readRset_witness :
  ∃ ints w,
    writeRset {[ 10; 1; 5 ]} (clear new) = Some w
    ∧ buf w = be32bytes (Z.of_nat (base.size ({[ 10; 1; 5 ]} : gset Z)))
              ++ int_bytes ints
    ∧ StronglySorted Z.lt ints
    ∧ list_to_set ints = ({[ 10; 1; 5 ]} : gset Z)
    ∧ readRset {[ 7 ]} (setPos 0 w) = Some ({[ 7 ]} ∪ {[ 10; 1; 5 ]}, w).
Proof.
  apply (writeRset_ascending_readRset_union {[ 10; 1; 5 ]} {[ 7 ]} new).
  - intros x. rewrite !elem_of_union, !elem_of_singleton. lia.
  - by vm_compute.
Defined.

(** A message received in two chunks: [load] of the first and [concat] of
    the second give a buffer that holds both, with the position at the
    length of the second chunk; after [setPos(0)] the reads return the
    values of the message. *)
Theorem chunked_load_reads_message (fs : list field) (d1 d2 : list Z)
    (b : ByteBuffer) :
  Forall representable fs →
  d1 ++ d2 = fs ≫= wire →
  Z.of_nat (length (d1 ++ d2)) < 2 ^ 32 →
  ∃ b2,
    (b1 ← load d1 0 (Z.of_nat (length d1)) b;
     concat d2 0 (Z.of_nat (length d2)) b1) = Some b2
    ∧ buf b2 = d1 ++ d2
    ∧ pos b2 = Z.of_nat (length d2)
    ∧ read_fields fs (setPos 0 b2)
      = Some (as_read <$> fs,
              {| buf := d1 ++ d2; pos := Z.of_nat (length (d1 ++ d2)) |}).
Proof.
  intros Hrep Hd Hlen. rewrite length_app in Hlen.
  unfold load, concat. rewrite !Nat2Z.id.
  rewrite decide_True by (cbn; lia). cbn [mbind option_bind].
  rewrite decide_True by (cbn; lia).
  eexists. split; [done|]. unfold advance, clear, setPos. cbn [buf pos drop].
  rewrite !firstn_all, app_nil_r. split_and!; [done|apply u32_small; lia|].
  rewrite !drop_0, Hd.
  pose proof (read_fields_wire fs [] [] 0 Hrep eq_refl) as H.
  cbn [app] in H. rewrite app_nil_r in H. rewrite H.
  - by rewrite Z.add_0_l.
  - rewrite <- Hd, length_app. lia.
Qed.

(** An instance: the bytes of a string split inside its length prefix. *)
Lemma chunked_load_witness :
  ∃ b2,
    (b1 ← load [0; 0] 0 2 new; concat [0; 2; 104; 105] 0 4 b1) = Some b2
    ∧ buf b2 = [0; 0; 0; 2; 104; 105]
    ∧ pos b2 = 4
    ∧ read_fields [FString ["h"; "i"]%char] (setPos 0 b2)
      = Some ([FString ["h"; "i"]%char],
              {| buf := [0; 0; 0; 2; 104; 105]; pos := 6 |}).
Proof.
  apply (chunked_load_reads_message [FString ["h"; "i"]%char]
           [0; 0] [0; 2; 104; 105] new).
  - repeat constructor.
  - done.
  - cbn. lia.
Defined.

End MoreBufferTheorems.

(** * Resources *)

Section Dealloc.
Import Resources.
Context {K : Type}.
Implicit Types (range : list (K * option positive)) (heap : gset positive).

Lemma pointers_nulled range : pointers (nulled range) = [].
Proof. induction range as [|[k v] range IH]; [done|]. apply IH. Qed.

Lemma nulled_nulled range : nulled (nulled range) = nulled range.
Proof.
  induction range as [|[k v] range IH]; [done|].
  cbn. f_equal. apply IH.
Qed.

Lemma deallocValues_spec range : ∀ heap,
  NoDup (pointers range) → (∀ p, p ∈ pointers range → p ∈ heap) →
  deallocValues range heap
  = Some (nulled range, heap ∖ list_to_set (pointers range)).
Proof.
  induction range as [|[k [p|]] range IH]; intros heap Hnd Hlive.
  - cbn. by rewrite difference_empty_L.
  - change (pointers ((k, Some p) :: range)) with (p :: pointers range) in *.
    apply NoDup_cons in Hnd as [Hp Hnd]. cbn [deallocValues].
    rewrite decide_True by (apply Hlive; left). cbn [mbind option_bind].
    rewrite IH; [|done|].
    + cbn [mbind option_bind nulled fmap list_fmap fst].
      by rewrite list_to_set_cons, difference_difference_l_L.
    + intros q Hq. apply elem_of_difference. split; [apply Hlive; by right|].
      rewrite elem_of_singleton. by intros ->.
  - change (pointers ((k, None) :: range)) with (pointers range) in *.
    cbn [deallocValues mbind option_bind]. by rewrite IH.
Qed.

Lemma deallocValues_defined range : ∀ heap,
  is_Some (deallocValues range heap) →
  NoDup (pointers range) ∧ ∀ p, p ∈ pointers range → p ∈ heap.
Proof.
  induction range as [|[k [p|]] range IH]; intros heap [r Hr].
  - split; [constructor|]. intros p Hp. by apply elem_of_nil in Hp.
  - change (pointers ((k, Some p) :: range)) with (p :: pointers range).
    cbn [deallocValues] in Hr.
    destruct (decide (p ∈ heap)) as [Hp|]; [|done].
    cbn [mbind option_bind] in Hr.
    destruct (deallocValues range (heap ∖ {[p]})) as [r'|] eqn:E; [|done].
    destruct (IH (heap ∖ {[p]})) as [Hnd Hlive]; [by rewrite E|].
    split.
    + apply NoDup_cons. split; [|done]. intros Hin.
      apply Hlive, elem_of_difference in Hin as [_ Hin].
      by apply Hin, elem_of_singleton.
    + intros q [->|Hq]%elem_of_cons; [done|].
      by apply Hlive, elem_of_difference in Hq as [Hq _].
  - change (pointers ((k, None) :: range)) with (pointers range).
    cbn [deallocValues mbind option_bind] in Hr.
    destruct (deallocValues range heap) as [r'|] eqn:E; [|done].
    apply (IH heap). by rewrite E.
Qed.

(** [deallocValues] is defined exactly when the pointers of the range
    that are not [NULL] are live and pairwise distinct.  It then deletes
    exactly those, sets every pointer of the range to [NULL] without
    touching the keys, and a second call on the result deletes nothing
    and changes nothing. *)
Theorem deallocValues_frees_each_pointer_once range heap :
  (is_Some (deallocValues range heap)
   ↔ NoDup (pointers range) ∧ ∀ p, p ∈ pointers range → p ∈ heap)
  ∧ ∀ range' heap',
      deallocValues range heap = Some (range', heap') →
      range' = nulled range
      ∧ heap' = heap ∖ list_to_set (pointers range)
      ∧ deallocValues range' heap' = Some (range', heap').
Proof.
  split.
  - split; [apply deallocValues_defined|].
    intros [Hnd Hlive]. by rewrite deallocValues_spec.
  - intros range' heap' Hrun.
    destruct (deallocValues_defined range heap) as [Hnd Hlive]; [by rewrite Hrun|].
    rewrite deallocValues_spec in Hrun by done. injection Hrun as <- <-.
    split_and!; [done|done|].
    rewrite deallocValues_spec; rewrite pointers_nulled.
    + by rewrite nulled_nulled, list_to_set_nil, difference_empty_L.
    + constructor.
    + intros p Hp. by apply elem_of_nil in Hp.
Qed.

End Dealloc.

(** An instance: the map of the repository's test, with one pointer
    already [NULL]. *)
Lemma deallocValues_witness :
  [(1, None); (2, None); (3, None)]
    = nulled [(1, Some 10%positive); (2, None); (3, Some 30%positive)]
  ∧ ({[ 20%positive ]} : gset positive)
    = {[ 10%positive; 20%positive; 30%positive ]}
      ∖ list_to_set
          (pointers [(1, Some 10%positive); (2, None); (3, Some 30%positive)])
  ∧ Resources.deallocValues [(1, None); (2, None); (3, None)] {[ 20%positive ]}
    = Some ([(1, None); (2, None); (3, None)], {[ 20%positive ]}).
Proof.
  apply (proj2 (deallocValues_frees_each_pointer_once
                  [(1, Some 10%positive); (2, None); (3, Some 30%positive)]
                  {[ 10%positive; 20%positive; 30%positive ]})).
  by vm_compute.
Defined.

Section Iterators.
Import Resources.

(** [getIteratorFromMap] of a key that is not in the map is the empty
    iterator, with [count == 0]; of a key that is in the map it is the
    iterator of its set: [count] is the number of elements, and walking
    from [current] to [end] visits every element of the set exactly once,
    in ascending order. *)
Theorem getIteratorFromMap_found_or_empty (from : gmap Z (gset Z)) (rid : Z) :
  (from !! rid = None →
     current (getIteratorFromMap from rid) = []
     ∧ count (getIteratorFromMap from rid) = 0)
  ∧ (∀ s, from !! rid = Some s → Z.of_nat (size s) < 2 ^ 32 →
       count (getIteratorFromMap from rid) = Z.of_nat (size s)
       ∧ Z.of_nat (length (current (getIteratorFromMap from rid)))
         = count (getIteratorFromMap from rid)
       ∧ StronglySorted Z.lt (current (getIteratorFromMap from rid))
       ∧ ∀ x, x ∈ current (getIteratorFromMap from rid) ↔ x ∈ s).
Proof.
  unfold getIteratorFromMap. split.
  - by intros ->.
  - intros s -> Hsize. unfold ResourceIterator, Iterator_of.
    cbn [current count]. rewrite length_ResourceSet_seq.
    rewrite u32_small by lia. split_and!; [done|done| |].
    + apply Sorted_lt_ResourceSet_seq.
    + intros x. unfold ResourceSet_seq.
      by rewrite merge_sort_Permutation, elem_of_elements.
Qed.

(** An instance: the map of the repository's test. *)
Lemma getIteratorFromMap_witness :
  (current (getIteratorFromMap {[ 1 := {[ 10; 20 ]}; 2 := {[ 30; 40 ]} ]} 999) = []
   ∧ count (getIteratorFromMap {[ 1 := {[ 10; 20 ]}; 2 := {[ 30; 40 ]} ]} 999) = 0)
  ∧ count (getIteratorFromMap {[ 1 := {[ 10; 20 ]}; 2 := {[ 30; 40 ]} ]} 1) = 2
  ∧ current (getIteratorFromMap {[ 1 := {[ 10; 20 ]}; 2 := {[ 30; 40 ]} ]} 1)
    = [10; 20].
Proof.
  pose proof (getIteratorFromMap_found_or_empty
                {[ 1 := {[ 10; 20 ]}; 2 := {[ 30; 40 ]} ]}) as H.
  split; [by apply (proj1 (H 999))|].
  destruct (proj2 (H 1) {[ 10; 20 ]}) as (Hc & _); [done|by vm_compute|].
  split; [exact Hc|done].
Defined.

End Iterators.

(** * Bitmap: the bits *)

Section BitmapBits.
Import Bitmap.

Lemma land_pow2 a n :
  0 ≤ n → Z.land a (2 ^ n) = if Z.testbit a n then 2 ^ n else 0.
Proof.
  intros Hn. apply Z.bits_inj'. intros j Hj.
  rewrite Z.land_spec, Z.pow2_bits_eqb by done.
  destruct (Z.eqb_spec n j) as [->|Hne].
  - destruct (Z.testbit a j) eqn:E; cbn.
    + by rewrite Z.pow2_bits_true.
    + by rewrite Z.bits_0.
  - rewrite andb_false_r.
    destruct (Z.testbit a n); [|by rewrite Z.bits_0].
    by rewrite Z.pow2_bits_false.
Qed.

Lemma isSet_testbit bit b :
  0 ≤ bit < 64 → isSet bit b = Some (Z.testbit (flags b) bit).
Proof.
  intros H. unfold isSet. rewrite bit_of_spec by done.
  cbn [mbind option_bind]. f_equal. rewrite land_pow2 by lia.
  destruct (Z.testbit (flags b) bit); [|done].
  assert (0 < 2 ^ bit) by (apply Z.pow_pos_nonneg; lia).
  apply Z.gtb_lt. lia.
Qed.

Lemma set_flags bit b :
  0 ≤ bit < 64 →
  set bit b = Some {| flags := Z.lor (flags b) (2 ^ bit); mask := mask b |}.
Proof. intros H. unfold set. by rewrite bit_of_spec. Qed.

Lemma unset_flags bit b :
  0 ≤ bit < 64 →
  unset bit b
  = Some {| flags := Z.land (flags b) (Z.lxor (mask b) (2 ^ bit));
            mask := mask b |}.
Proof. intros H. unfold unset. by rewrite bit_of_spec. Qed.

(** [set(bit)] sets that bit and changes no other bit and not the mask. *)
Theorem set_sets_exactly_that_bit (bit : Z) (b : Bitmap) :
  0 ≤ bit < 64 →
  ∃ b', set bit b = Some b'
        ∧ mask b' = mask b
        ∧ isSet bit b' = Some true
        ∧ ∀ j, 0 ≤ j < 64 → j ≠ bit → isSet j b' = isSet j b.
Proof.
  intros H. eexists. split; [by apply set_flags|]. cbn [mask].
  split_and!; [done| |].
  - rewrite isSet_testbit by done. cbn [flags].
    by rewrite Z.lor_spec, Z.pow2_bits_true, orb_true_r by lia.
  - intros j Hj Hne. rewrite !isSet_testbit by done. cbn [flags].
    by rewrite Z.lor_spec, Z.pow2_bits_false, orb_false_r by lia.
Qed.

(** An instance: bit 3 of the bitmap with bits 0 and 7 set. *)
Lemma set_sets_exactly_that_bit_witness :
  ∃ b', set 3 {| flags := 129; mask := 255 |} = Some b'
        ∧ mask b' = 255
        ∧ isSet 3 b' = Some true
        ∧ ∀ j, 0 ≤ j < 64 → j ≠ 3 →
               isSet j b' = isSet j {| flags := 129; mask := 255 |}.
Proof. apply (set_sets_exactly_that_bit 3 {| flags := 129; mask := 255 |}). lia. Defined.

(** [unset(bit)] ands the flags with [mask ^ (1 << bit)].  For a bit
    inside the mask it clears that bit, keeps the other bits inside the
    mask and clears every bit outside the mask; for a bit outside the
    mask it leaves that very bit as it was and clears the other bits
    outside the mask. *)
Theorem unset_clears_within_mask (maxBits bit : Z) (b : Bitmap) :
  0 ≤ maxBits < 64 → mask b = Z.ones maxBits → 0 ≤ bit < 64 →
  ∃ b', unset bit b = Some b'
        ∧ mask b' = mask b
        ∧ (bit < maxBits → isSet bit b' = Some false)
        ∧ (maxBits ≤ bit → isSet bit b' = isSet bit b)
        ∧ (∀ j, 0 ≤ j < maxBits → j ≠ bit → isSet j b' = isSet j b)
        ∧ (∀ j, maxBits ≤ j < 64 → j ≠ bit → isSet j b' = Some false).
Proof.
  intros Hmax Hmask Hbit. eexists. split; [by apply unset_flags|].
  cbn [mask]. split; [done|].
  assert (∀ j, 0 ≤ j < 64 →
            isSet j {| flags := Z.land (flags b) (Z.lxor (mask b) (2 ^ bit));
                       mask := mask b |}
            = Some (Z.testbit (flags b) j
                    && xorb (j <? maxBits) (bit =? j))) as Hbits.
  { intros j Hj. rewrite isSet_testbit by done. cbn [flags]. f_equal.
    rewrite Z.land_spec, Z.lxor_spec, Hmask, Z.testbit_ones by lia.
    rewrite Z.pow2_bits_eqb by lia. by decide_cmp. }
  split_and!.
  - intros Hlt. rewrite Hbits by done. rewrite Z.eqb_refl. decide_cmp.
    by rewrite andb_false_r.
  - intros Hge. rewrite Hbits, isSet_testbit by done. rewrite Z.eqb_refl.
    decide_cmp. by rewrite andb_true_r.
  - intros j Hj Hne. rewrite Hbits, isSet_testbit by lia.
    rewrite (proj2 (Z.eqb_neq bit j)) by lia. decide_cmp.
    by rewrite andb_true_r.
  - intros j Hj Hne. rewrite Hbits by lia.
    rewrite (proj2 (Z.eqb_neq bit j)) by lia. decide_cmp.
    by rewrite andb_false_r.
Qed.

(** An instance: [unset(9)] on a bitmap of 8 bits whose bit 9 is set. *)
Lemma unset_clears_within_mask_witness :
  ∃ b', unset 9 {| flags := 512 + 5; mask := 255 |} = Some b'
        ∧ mask b' = 255
        ∧ (9 < 8 → isSet 9 b' = Some false)
        ∧ (8 ≤ 9 → isSet 9 b' = isSet 9 {| flags := 512 + 5; mask := 255 |})
        ∧ (∀ j, 0 ≤ j < 8 → j ≠ 9 →
                isSet j b' = isSet j {| flags := 512 + 5; mask := 255 |})
        ∧ (∀ j, 8 ≤ j < 64 → j ≠ 9 → isSet j b' = Some false).
Proof.
  apply (unset_clears_within_mask 8 9 {| flags := 512 + 5; mask := 255 |});
    [lia|done|lia].
Defined.

(** [isFull()] holds exactly when the bits below [maxBits] are set and no
    other bit is; [isEmpty()] holds exactly when no bit is set. *)
Theorem isFull_isEmpty_by_bits (maxBits : Z) (b : Bitmap) :
  0 ≤ maxBits < 64 → mask b = Z.ones maxBits → 0 ≤ flags b < 2 ^ 64 →
  (isFull b = true ↔ ∀ j, 0 ≤ j < 64 → isSet j b = Some (j <? maxBits))
  ∧ (isEmpty b = true ↔ ∀ j, 0 ≤ j < 64 → isSet j b = Some false).
Proof.
  intros Hmax Hmask Hflags. unfold isFull, isEmpty. rewrite !Z.eqb_eq. split.
  - split.
    + intros Heq j Hj. rewrite isSet_testbit by done.
      rewrite Heq, Hmask, Z.testbit_ones by lia. f_equal. by decide_cmp.
    + intros Hbits. rewrite Hmask. apply Z.bits_inj'. intros j Hj.
      rewrite Z.testbit_ones by lia.
      destruct (decide (j < 64)) as [Hlt|Hge].
      * specialize (Hbits j ltac:(lia)). rewrite isSet_testbit in Hbits by lia.
        injection Hbits as ->. by decide_cmp.
      * rewrite (testbit_above (flags b) 64) by lia. by decide_cmp.
  - split.
    + intros Heq j Hj. rewrite isSet_testbit by done.
      by rewrite Heq, Z.bits_0.
    + intros Hbits. apply Z.bits_inj'. intros j Hj. rewrite Z.bits_0.
      destruct (decide (j < 64)) as [Hlt|Hge].
      * specialize (Hbits j ltac:(lia)). rewrite isSet_testbit in Hbits by lia.
        by injection Hbits as ->.
      * by rewrite (testbit_above (flags b) 64) by lia.
Qed.

(** An instance: a bitmap of 8 bits with all of them set. *)
Lemma isFull_isEmpty_by_bits_witness :
  (isFull {| flags := 255; mask := 255 |} = true
   ↔ ∀ j, 0 ≤ j < 64 → isSet j {| flags := 255; mask := 255 |} = Some (j <? 8))
  ∧ (isEmpty {| flags := 255; mask := 255 |} = true
     ↔ ∀ j, 0 ≤ j < 64 → isSet j {| flags := 255; mask := 255 |} = Some false).
Proof.
  apply (isFull_isEmpty_by_bits 8 {| flags := 255; mask := 255 |});
    [lia|done|cbn; lia].
Defined.

End BitmapBits.

Section BitmapFull.
Import Bitmap.

Lemma mutate_all_sets bits : ∀ b,
  Forall (λ i, 0 ≤ i < 64) bits →
  ∃ b', mutate_all (DoSet <$> bits) b = Some b'
        ∧ mask b' = mask b
        ∧ ∀ j, 0 ≤ j →
               Z.testbit (flags b') j
               = Z.testbit (flags b) j || bool_decide (j ∈ bits).
Proof.
  induction bits as [|i bits IH]; intros b Hbits.
  - exists b. split_and!; [done|done|]. intros j Hj.
    rewrite bool_decide_false by apply not_elem_of_nil. by rewrite orb_false_r.
  - apply Forall_cons in Hbits as [Hi Hbits].
    destruct (IH {| flags := Z.lor (flags b) (2 ^ i); mask := mask b |} Hbits)
      as (b' & Hrun & Hmask & Hflags).
    exists b'. cbn [fmap list_fmap mutate_all mutate].
    rewrite set_flags by done. cbn [mbind option_bind].
    split_and!; [done|done|]. intros j Hj.
    rewrite Hflags by done. cbn [flags].
    rewrite Z.lor_spec, Z.pow2_bits_eqb by lia.
    destruct (Z.eqb_spec i j) as [->|Hne].
    + rewrite (bool_decide_true (j ∈ j :: bits)) by left.
      by rewrite !orb_true_r.
    + rewrite orb_false_r. f_equal. apply bool_decide_ext.
      rewrite elem_of_cons. split; [by right|].
      intros [Heq|Hin]; [by subst|done].
Qed.

(** From a fresh bitmap of [maxBits] bits, after any sequence of [set]
    calls on bits below [maxBits], [isFull()] holds exactly when every
    bit below [maxBits] has been set, and [isEmpty()] exactly when
    nothing has been set. *)
Theorem full_exactly_when_all_bits_set (maxBits : Z) (b : Bitmap)
    (bits : list Z) :
  new maxBits = Some b →
  Forall (λ i, 0 ≤ i < maxBits) bits →
  ∃ b', mutate_all (DoSet <$> bits) b = Some b'
        ∧ (isFull b' = true ↔ ∀ i, 0 ≤ i < maxBits → i ∈ bits)
        ∧ (isEmpty b' = true ↔ bits = []).
Proof.
  intros Hnew Hbits. apply new_spec in Hnew as (Hmax & Hflags & Hmask).
  destruct (mutate_all_sets bits b) as (b' & Hrun & Hmask' & Hb').
  { eapply Forall_impl; [done|]. cbn. lia. }
  exists b'. split; [done|]. unfold isFull, isEmpty. rewrite !Z.eqb_eq.
  assert (∀ j, 0 ≤ j → Z.testbit (flags b') j = bool_decide (j ∈ bits)) as Hj.
  { intros j Hj. by rewrite Hb', Hflags, Z.bits_0 by done. }
  rewrite Hmask', Hmask. split; split.
  - intros Heq i Hi. apply (bool_decide_unpack _).
    rewrite <- Hj, Heq, Z.testbit_ones by lia. by decide_cmp.
  - intros Hall. apply Z.bits_inj'. intros j Hj0.
    rewrite Hj, Z.testbit_ones by lia. decide_cmp. cbn [andb].
    destruct (Z.ltb_spec j maxBits).
    + apply bool_decide_eq_true. apply Hall. lia.
    + apply bool_decide_eq_false. intros Hin.
      pose proof (proj1 (Forall_forall _ _) Hbits j Hin). cbn in *. lia.
  - intros Heq. destruct bits as [|i bits]; [done|].
    apply Forall_cons in Hbits as [Hi _].
    pose proof (Hj i ltac:(lia)) as H.
    rewrite Heq, Z.bits_0, bool_decide_true in H by left. done.
  - intros ->. apply Z.bits_inj'. intros j Hj0.
    rewrite Hj, Z.bits_0 by done. apply bool_decide_eq_false, not_elem_of_nil.
Qed.

(** An instance: the bits 0 to 7 of a bitmap of 8 bits, in some order. *)
Lemma full_exactly_when_all_bits_set_witness :
  ∃ b', mutate_all (DoSet <$> [3; 0; 7; 1; 2; 6; 5; 4; 3])
          {| flags := 0; mask := 255 |} = Some b'
        ∧ (isFull b' = true
           ↔ ∀ i, 0 ≤ i < 8 → i ∈ [3; 0; 7; 1; 2; 6; 5; 4; 3])
        ∧ (isEmpty b' = true ↔ [3; 0; 7; 1; 2; 6; 5; 4; 3] = []).
Proof.
  apply (full_exactly_when_all_bits_set 8); [done|].
  repeat constructor; lia.
Defined.

End BitmapFull.

(** * Bitmap: a flag outside the mask *)

Section BitmapOutsideMask.
Import Bitmap.

(** A flag at or above [maxBits] breaks the invariant and keeps the bitmap
    from being full. *)
Lemma flag_outside_mask maxBits bit b :
  mask b = Z.ones maxBits → 0 ≤ maxBits ≤ bit → bit < 64 →
  Z.testbit (flags b) bit = true →
  ¬ within_mask b ∧ isFull b = false.
Proof.
  intros Hmask Hmax Hbit Hflag. split.
  - unfold within_mask. intros H%(f_equal (λ z, Z.testbit z bit)).
    cbn beta in H. unfold u64 in H. rewrite <- Z.land_ones in H by lia.
    rewrite !Z.land_spec, Z.lnot_spec, Hflag, Hmask, !Z.testbit_ones in H
      by lia.
    rewrite Z.bits_0 in H. revert H. decide_cmp. done.
  - unfold isFull. apply Z.eqb_neq. intros Heq.
    rewrite Heq, Hmask, Z.testbit_ones in Hflag by lia.
    revert Hflag. decide_cmp. by rewrite ?andb_false_r.
Qed.

(** C7, a defect of the code: [set(bit)] checks only [bit < 64] and ors
    the bit into [flags] without the mask.  On a bitmap constructed with
    [maxBits], a call [set(bit)] with [maxBits <= bit < 64] is defined and
    leaves [flags == 2^bit] outside the mask, so [flags & ~mask == 0]
    fails after it; and whatever [set] calls follow, the invariant stays
    broken and [isFull()] is false, also when every bit within the mask
    has been set. *)
Theorem set_outside_mask_breaks_invariant (maxBits bit : Z) (b : Bitmap)
    (bits : list Z) :
  new maxBits = Some b →
  maxBits ≤ bit < 64 →
  Forall (λ i, 0 ≤ i < 64) bits →
  ∃ b1 b2,
    set bit b = Some b1
    ∧ flags b1 = 2 ^ bit ∧ mask b1 = Z.ones maxBits
    ∧ ¬ within_mask b1
    ∧ mutate_all (DoSet <$> bits) b1 = Some b2
    ∧ mask b2 = Z.ones maxBits
    ∧ ¬ within_mask b2
    ∧ isFull b2 = false.
Proof.
  intros Hnew Hbit Hbits. apply new_spec in Hnew as (Hmax & Hflags & Hmask).
  assert (0 ≤ bit < 64) as Hb64 by lia.
  destruct (mutate_all_sets bits
              {| flags := Z.lor (flags b) (2 ^ bit); mask := mask b |} Hbits)
    as (b2 & Hrun & Hmask2 & Hflags2).
  cbn [flags mask] in *.
  exists {| flags := Z.lor (flags b) (2 ^ bit); mask := mask b |}, b2.
  assert (Z.lor (flags b) (2 ^ bit) = 2 ^ bit) as Hor by (by rewrite Hflags).
  assert (Z.testbit (2 ^ bit) bit = true) as Hset
    by (apply Z.pow2_bits_true; lia).
  split_and!; cbn [flags mask].
  - by apply set_flags.
  - done.
  - done.
  - apply (flag_outside_mask maxBits bit); cbn [flags mask];
      [done|lia|lia|by rewrite Hor].
  - done.
  - congruence.
  - apply (flag_outside_mask maxBits bit); [congruence|lia|lia|].
    rewrite Hflags2 by lia. by rewrite Hor, Hset.
  - apply (flag_outside_mask maxBits bit); [congruence|lia|lia|].
    rewrite Hflags2 by lia. by rewrite Hor, Hset.
Qed.

(** An instance: [set(9)] on a bitmap of 8 bits, followed by [set] of the
    bits 0 to 7; the flags are then [0x2ff] against the mask [0xff]. *)
Lemma set_outside_mask_witness :
  (∃ b1 b2,
     set 9 {| flags := 0; mask := 255 |} = Some b1
     ∧ flags b1 = 512 ∧ mask b1 = 255
     ∧ ¬ within_mask b1
     ∧ mutate_all (DoSet <$> [0; 1; 2; 3; 4; 5; 6; 7]) b1 = Some b2
     ∧ mask b2 = 255
     ∧ ¬ within_mask b2
     ∧ isFull b2 = false)
  ∧ mutate_all (DoSet <$> [0; 1; 2; 3; 4; 5; 6; 7])
      {| flags := 512; mask := 255 |}
    = Some {| flags := 767; mask := 255 |}.
Proof.
  split; [|done].
  apply (set_outside_mask_breaks_invariant 8 9 {| flags := 0; mask := 255 |}
           [0; 1; 2; 3; 4; 5; 6; 7]); [done|lia|].
  repeat constructor; lia.
Defined.

End BitmapOutsideMask.

(** * Generators: order of the output *)

Section MaskOrder.

Lemma StronglySorted_mask_lt_cons x l :
  StronglySorted mask_lt l → StronglySorted mask_lt (cons x <$> l).
Proof.
  induction 1 as [|m l Hl IH Hm]; [constructor|].
  rewrite fmap_cons. constructor; [done|].
  apply Forall_fmap. eapply Forall_impl; [done|].
  intros m' Hlt. unfold mask_lt in *. cbn. by rewrite Bool.eqb_reflx.
Qed.

Lemma StronglySorted_masks n : ∀ k, StronglySorted mask_lt (masks n k).
Proof.
  induction n as [|n IH]; intros k; cbn [masks].
  - destruct k; repeat constructor.
  - apply StronglySorted_app_2.
    + intros m1 m2 (a & -> & _)%list_elem_of_fmap Hm2.
      destruct k; [by apply elem_of_nil in Hm2|].
      by apply list_elem_of_fmap in Hm2 as (b & -> & _).
    + apply StronglySorted_mask_lt_cons, IH.
    + destruct k; [constructor|]. apply StronglySorted_mask_lt_cons, IH.
Qed.

Lemma pick_replicate_false {A} n : ∀ (es : list A) bm,
  n = length es →
  pick (replicate n false ++ bm) (es) = [].
Proof.
  induction n as [|n IH]; intros [|e es] bm Hn; try done.
  - by destruct bm.
  - cbn. apply IH. by injection Hn.
Qed.

Lemma pick_lowest {A} (es : list A) k :
  (k ≤ length es)%nat →
  pick (lowest (length es) k) es = drop (length es - k) es.
Proof.
  unfold lowest. revert k. induction es as [|e es IH]; intros k Hk.
  - assert (k = 0)%nat as -> by (cbn in Hk; lia). done.
  - cbn [length] in *. destruct (decide (k = S (length es))) as [->|Hne].
    + rewrite Nat.sub_diag. cbn [replicate app pick drop]. f_equal.
      specialize (IH (length es) ltac:(lia)).
      rewrite Nat.sub_diag in IH. apply IH.
    + replace (S (length es) - k)%nat with (S (length es - k)) by lia.
      cbn [replicate app pick drop]. apply IH. lia.
Qed.

Lemma pick_descending {A} (es : list A) k :
  (k ≤ length es)%nat →
  pick (descending k (length es - k)) es = take k es.
Proof.
  unfold descending. revert k. induction es as [|e es IH]; intros k Hk.
  - assert (k = 0)%nat as -> by (cbn in Hk; lia). done.
  - cbn [length] in *. destruct k as [|k].
    + cbn [replicate app take]. rewrite Nat.sub_0_r.
      rewrite <- (app_nil_r (replicate _ false)).
      apply (pick_replicate_false (S (length es)) (e :: es) []). done.
    + cbn [replicate app pick take Nat.sub]. f_equal. apply IH. lia.
Qed.

(** The first and the last vector of the enumeration. *)
Lemma masks_ends n k :
  (k ≤ n)%nat →
  head (masks n k) = Some (lowest n k)
  ∧ last (masks n k) = Some (descending k (n - k)).
Proof.
  intros Hk. pose proof (chain_masks n k Hk) as Hc.
  induction Hc as [m|m m' l e Hnext Hc IH]; [done|].
  split; [done|]. destruct IH as [_ IH].
  destruct l as [|x l]; [inversion Hc|]. by rewrite last_cons_cons.
Qed.

End MaskOrder.

Section CombinationOrder.
Import CombinationGenerator.
Context {A : Type}.
Implicit Types (g : CombinationGenerator A) (pool : list A).

Lemma lowest_nonempty pool k :
  (k ≤ length pool)%nat → pool ≠ [] → lowest (length pool) k ≠ [].
Proof.
  intros Hk Hne H%(f_equal length). unfold lowest in H.
  rewrite length_app, !length_replicate in H.
  destruct pool; [done|]. cbn [length] in *. lia.
Qed.

(** The run of the loop from the state the first call fills in. *)
Lemma drive_filled pool k fuel :
  (k ≤ length pool)%nat → pool ≠ [] →
  (binom (length pool) k ≤ fuel)%nat →
  drive fuel {| bmap := lowest (length pool) k; elems := pool; from := pool;
                greater := true; ssize := k |}
  = Some ((λ m, pick m pool) <$> masks (length pool) k,
          {| bmap := lowest (length pool) k; elems := pool; from := pool;
             greater := false; ssize := k |}).
Proof.
  intros Hk Hne Hfuel.
  apply (drive_chain _ _ _ (chain_masks (length pool) k Hk)
           (lowest (length pool) k)
           {| bmap := lowest (length pool) k; elems := pool; from := pool;
              greater := true; ssize := k |}).
  - apply next_permutation_descending.
  - done.
  - by apply lowest_nonempty.
  - unfold lowest. cbn [elems]. rewrite length_app, !length_replicate. lia.
  - done.
  - by rewrite length_masks.
Qed.

(** For any pool, equal elements or not, the loop produces the
    combinations in the lexicographic order of their selection vectors:
    the list of the vectors is strictly increasing, the first combination
    is the last [k] elements of the pool and the last combination is the
    first [k] elements. *)
Theorem combinations_in_lexicographic_order pool (k : nat) :
  (k ≤ length pool)%nat → pool ≠ [] →
  ∃ g,
    (∀ fuel, (binom (length pool) k ≤ fuel)%nat →
       drive fuel (new pool k)
       = Some ((λ m, pick m pool) <$> masks (length pool) k, g))
    ∧ StronglySorted mask_lt (masks (length pool) k)
    ∧ head ((λ m, pick m pool) <$> masks (length pool) k)
      = Some (drop (length pool - k) pool)
    ∧ last ((λ m, pick m pool) <$> masks (length pool) k)
      = Some (take k pool)
    ∧ length ((λ m, pick m pool) <$> masks (length pool) k)
      = binom (length pool) k.
Proof.
  intros Hk Hne. eexists. split_and!.
  - intros fuel Hfuel. rewrite drive_new by done. by apply drive_filled.
  - apply StronglySorted_masks.
  - destruct (masks_ends (length pool) k Hk) as [Hh _].
    destruct (masks (length pool) k) as [|m l]; [done|].
    cbn in Hh. injection Hh as ->. cbn. f_equal. by apply pick_lowest.
  - destruct (masks_ends (length pool) k Hk) as [_ Hl].
    rewrite fmap_last, Hl. cbn. f_equal. by apply pick_descending.
  - by rewrite length_fmap, length_masks.
Qed.

(** The state a finished loop leaves differs from the state the first
    call fills in only in [greater]: a call of [get()] after exhaustion
    returns the first combination again, and the loop resumed after it
    produces the whole enumeration once more and ends in the same
    state. *)
Theorem get_after_exhaustion_restarts pool (k : nat) (fuel : nat) :
  (k ≤ length pool)%nat → pool ≠ [] →
  (binom (length pool) k ≤ S fuel)%nat →
  ∃ g,
    drive (S fuel) (new pool k)
      = Some ((λ m, pick m pool) <$> masks (length pool) k, g)
    ∧ hasNext g = false
    ∧ ('(c, g1) ← get g; '(cs, g2) ← drive fuel g1; Some (c :: cs, g2))
      = Some ((λ m, pick m pool) <$> masks (length pool) k, g).
Proof.
  intros Hk Hne Hfuel.
  pose proof (lowest_nonempty pool k Hk Hne) as Hlow.
  eexists. split_and!.
  - rewrite drive_new by done. by apply drive_filled.
  - unfold hasNext. cbn [greater bmap orb]. by rewrite bool_decide_false.
  - pose proof (drive_filled pool k (S fuel) Hk Hne Hfuel) as Hrun.
    cbn [drive] in Hrun. unfold hasNext in Hrun at 1.
    cbn [greater orb] in Hrun. rewrite <- Hrun. clear Hrun.
    unfold get. cbn [bmap elems from ssize].
    by rewrite (bool_decide_false _ Hlow).
Qed.

End CombinationOrder.

(** An instance: the pairs of a pool of four elements. *)
Lemma combinations_in_lexicographic_order_witness :
  ∃ g,
    (∀ fuel, (6 ≤ fuel)%nat →
       CombinationGenerator.drive fuel
         (CombinationGenerator.new [1; 2; 3; 4] 2)
       = Some ([[3; 4]; [2; 4]; [2; 3]; [1; 4]; [1; 3]; [1; 2]], g))
    ∧ StronglySorted mask_lt (masks 4 2)
    ∧ head [[3; 4]; [2; 4]; [2; 3]; [1; 4]; [1; 3]; [1; 2]] = Some [3; 4]
    ∧ last [[3; 4]; [2; 4]; [2; 3]; [1; 4]; [1; 3]; [1; 2]] = Some [1; 2]
    ∧ length [[3; 4]; [2; 4]; [2; 3]; [1; 4]; [1; 3]; [1; 2]] = 6%nat.
Proof.
  apply (combinations_in_lexicographic_order [1; 2; 3; 4] 2); [cbn; lia|done].
Defined.

(** An instance: the same pool, resumed after the loop has ended. *)
Lemma get_after_exhaustion_witness :
  ∃ g,
    CombinationGenerator.drive 6 (CombinationGenerator.new [1; 2; 3; 4] 2)
      = Some ([[3; 4]; [2; 4]; [2; 3]; [1; 4]; [1; 3]; [1; 2]], g)
    ∧ CombinationGenerator.hasNext g = false
    ∧ ('(c, g1) ← CombinationGenerator.get g;
       '(cs, g2) ← CombinationGenerator.drive 5 g1;
       Some (c :: cs, g2))
      = Some ([[3; 4]; [2; 4]; [2; 3]; [1; 4]; [1; 3]; [1; 2]], g).
Proof.
  apply (get_after_exhaustion_restarts [1; 2; 3; 4] 2 5); [cbn; lia|done|cbn; lia].
Defined.

Section RandomPass.
Import RandomGenerator.
Context {K V : Type}.
Implicit Types (g : RandomGenerator K V) (pool : list (K * V)).

(** Within a pass, that is for up to [n] calls of [get()] after
    construction or [reset()], every call is defined, the keys returned
    are pairwise distinct keys of the pool, and together with the keys
    left in the working list they are the keys of the pool; on an empty
    pool the first call is undefined. *)
Theorem draws_within_a_pass_are_distinct pool (rs : list nat) g :
  NoDup pool.*1 → from g = pool →
  (0 < length rs ≤ length pool)%nat →
  (∃ ks g', gets rs (reset g) = Some (ks, g')
            ∧ NoDup ks ∧ ks ⊆ pool.*1
            ∧ ks ++ elems g' ≡ₚ pool.*1
            ∧ length (elems g') = (length pool - length rs)%nat)
  ∧ ∀ r, get r (new (@nil (K * V))) = None.
Proof.
  intros Hnd Hfrom Hlen. split; [|done]. subst pool.
  destruct rs as [|r rs]; [cbn in Hlen; lia|].
  destruct (gets_spec (r :: rs) {| elems := (from g).*1; from := from g |})
    as (ks & g' & Hgets & Hperm & Hks & _).
  { cbn [elems]. rewrite length_fmap. lia. }
  assert (get r (reset g) = get r {| elems := (from g).*1; from := from g |})
    as Hfill by (by apply (get_refill r (reset g))).
  cbn [gets elems] in *. rewrite <- Hfill in Hgets.
  exists ks, g'. split; [done|].
  assert (NoDup (ks ++ elems g')) as Hnd' by (by rewrite Hperm).
  apply NoDup_app in Hnd' as (Hnd1 & _ & _).
  split_and!; [done| |done|].
  - intros x Hx. rewrite <- Hperm. apply elem_of_app. by left.
  - apply Permutation_length in Hperm.
    rewrite length_app, length_fmap, Hks in Hperm. cbn [length] in *. lia.
Qed.

End RandomPass.

(** An instance: two draws from a pool of three keys. *)
Lemma draws_within_a_pass_witness :
  ∃ ks g',
    RandomGenerator.gets [4; 9]%nat
      (RandomGenerator.reset
         (RandomGenerator.new [(1, true); (2, false); (3, true)]))
      = Some (ks, g')
    ∧ NoDup ks ∧ ks ⊆ [1; 2; 3]
    ∧ ks ++ RandomGenerator.elems g' ≡ₚ [1; 2; 3]
    ∧ length (RandomGenerator.elems g') = 1%nat.
Proof.
  refine (proj1 (draws_within_a_pass_are_distinct
            [(1, true); (2, false); (3, true)] [4; 9]%nat
            (RandomGenerator.new [(1, true); (2, false); (3, true)]) _ _ _)).
  - apply (bool_decide_unpack _). by vm_compute.
  - done.
  - cbn. lia.
Defined.
